(** * shared-memory-store: the native MemoryStore addon (src/memorystore.cpp)

    A shallow embedding of the C++ class [MemoryStore] and of the part of the
    JavaScript host it talks to through N-API, followed by the properties of
    the store's specification.

    Conventions.
    - [std::chrono::steady_clock::time_point] is its tick count, a signed
      64-bit number of nanoseconds, written as a [Z].  Sums of time points are
      exact below [time_point_max]; C++ leaves signed overflow undefined.
    - Every operation that reads the clock takes the reading as [now].
    - A JavaScript exception is the [Thrown] completion.  The addon is built
      with [NAPI_DISABLE_CPP_EXCEPTIONS] (binding.gyp), so N-API raises no C++
      exception: a failing call returns an empty value and leaves the
      JavaScript exception pending, the method runs on to its [return], and
      the JavaScript caller then gets the pending exception in place of the
      returned value.  The [catch] of [SafeGetString] is never entered.
    - [std::unordered_map<std::string, T>] is [gmap string T]; its iteration
      order is the one of [map_to_list]. *)

From stdpp Require Import gmap strings list fin_maps pretty.

Set Warnings "-register-all".
Local Open Scope Z_scope.

(** ** Completions: a value or a JavaScript exception *)

Inductive Completion (A : Type) : Type :=
| Normal (a : A)
| Thrown (message : string).
Arguments Normal {A} a.
Arguments Thrown {A} message.

Global Instance Completion_ret : MRet Completion := λ A a, Normal a.
Global Instance Completion_bind : MBind Completion := λ A B f c,
  match c with
  | Normal a => f a
  | Thrown message => Thrown message
  end.

Definition is_Normal {A} (c : Completion A) : Prop :=
  match c with Normal _ => True | Thrown _ => False end.

(** ** Native code: N-API without C++ exceptions

    A piece of native code is run with the exception that is pending in the
    environment, if there is one, and hands the pending exception on together
    with its result. *)

Definition Napi (A : Type) : Type := option string → A * option string.

Global Instance Napi_ret : MRet Napi := λ A a pending, (a, pending).
Global Instance Napi_bind : MBind Napi := λ A B f c pending,
  let r := c pending in f r.1 r.2.

(** An N-API call that enters the JavaScript engine (a property lookup, a
    property read, a function call), [js] being what the JavaScript it runs
    does.  With an exception pending the call fails at once; when the
    JavaScript throws, the exception becomes the pending one.  A failing call
    returns [empty]. *)
Definition entering {A} (empty : A) (js : Completion A) : Napi A := λ pending,
  match pending with
  | Some e => (empty, Some e)
  | None =>
      match js with
      | Normal a => (a, None)
      | Thrown message => (empty, Some message)
      end
  end.

(** What the caller of native code gets when the code has returned [ret]:
    the exception that is pending, or [ret]. *)
Definition completion {A} (ret : A) (pending : option string) : Completion A :=
  match pending with
  | None => Normal ret
  | Some e => Thrown e
  end.

(** Native code called from JavaScript, with no exception pending: what it
    returns, or the exception it has left pending. *)
Definition returned {A} (body : Napi A) : Completion A :=
  let r := body None in completion r.1 r.2.

(** A method called from JavaScript, with no exception pending.  The body
    returns a value and the state it has left the object in; the caller gets
    the value or the pending exception, and the object is in that state in
    either case. *)
Definition callback {V S} (body : Napi (V * S)) : Completion V * S :=
  let r := body None in (completion r.1.1 r.2, r.1.2).

(** ** The clock *)

(** [std::chrono::steady_clock::time_point::max()] *)
Definition time_point_max : Z := 2 ^ 63 - 1.

(** [std::chrono::milliseconds(n)] added to a time point: nanoseconds. *)
Definition milliseconds (n : N) : Z := Z.of_N n * 1000000.

(** The largest value [Uint32Value] can return. *)
Definition uint32_max : N := 2 ^ 32 - 1.

(** A clock reading from which every 32-bit TTL can be added without reaching
    [time_point_max] (the first 292 years of the steady clock, less 50 days). *)
Definition clock_in_range (now : Z) : Prop :=
  0 ≤ now ∧ now + milliseconds uint32_max < time_point_max.

(** ** The host's numbers

    JavaScript numbers are IEEE doubles.  The store only formats them
    ([std::to_string]), truncates them to 32 bits ([Uint32Value]) and creates
    them from 32-bit counts ([Napi::Number::New]); the three operations and the
    facts used about them form the interface. *)

Class HostNumber : Type := {
  double : Type;
  (** [std::to_string(double)] *)
  to_string : double → string;
  (** [Napi::Number::Uint32Value]: ToUint32 of the number *)
  Uint32Value : double → N;
  (** the number with a given unsigned integer value *)
  Number_New : N → double;
  Uint32Value_range : ∀ d, (Uint32Value d < 2 ^ 32)%N;
  Uint32Value_New : ∀ n, (n ≤ 2 ^ 53)%N →
    Uint32Value (Number_New n) = (n `mod` 2 ^ 32)%N;
}.

Section Values.
Context `{HostNumber}.

(** ** JavaScript values as seen through [Napi::Value]

    An ordinary object is its list of own properties; a property is a data
    property or an accessor whose getter throws.  [JsProxy a] is a mutable key:
    the [Proxy] built by [CreateMutableKey], whose target object lives at
    address [a] of the JavaScript heap. *)

Inductive JsValue : Type :=
| JsUndefined
| JsNull
| JsBoolean (b : bool)
| JsNumber (d : double)
| JsString (s : string)
| JsSymbol (description : string)
| JsBigInt (n : Z)
| JsFunction (name : string)
| JsArray (items : list JsValue)
| JsObject (props : list (string * PropertySlot))
| JsProxy (target : nat)
with PropertySlot : Type :=
| DataProperty (v : JsValue)
| ThrowingGetter (message : string).

(** The target object of a mutable key: [{ value, __keyId }]
    (memorystore.cpp:179-181). *)
Record ProxyTarget : Type := {
  target_value : JsValue;
  target_keyId : string;
}.

(** The JavaScript heap, as far as the store can see it: the targets of the
    mutable keys created so far, by address. *)
Local Abbreviation Heap := (list ProxyTarget).

Definition IsNull (v : JsValue) : bool :=
  match v with JsNull => true | _ => false end.
Definition IsUndefined (v : JsValue) : bool :=
  match v with JsUndefined => true | _ => false end.
Definition IsString (v : JsValue) : bool :=
  match v with JsString _ => true | _ => false end.
Definition IsNumber (v : JsValue) : bool :=
  match v with JsNumber _ => true | _ => false end.
Definition IsBoolean (v : JsValue) : bool :=
  match v with JsBoolean _ => true | _ => false end.
(** [Napi::Value::IsObject]: type object or function. *)
Definition IsObject (v : JsValue) : bool :=
  match v with
  | JsFunction _ | JsArray _ | JsObject _ | JsProxy _ => true
  | _ => false
  end.

(** [As<Napi::String>().Utf8Value()] *)
Definition Utf8Value (v : JsValue) : string :=
  match v with JsString s => s | _ => "" end.
(** [As<Napi::Boolean>().Value()] *)
Definition BooleanValue (v : JsValue) : bool :=
  match v with JsBoolean b => b | _ => false end.
(** [As<Napi::Number>().Uint32Value()] *)
Definition NumberUint32Value (v : JsValue) : N :=
  match v with JsNumber d => Uint32Value d | _ => 0%N end.

Fixpoint find_prop (name : string) (props : list (string * PropertySlot))
  : option PropertySlot :=
  match props with
  | [] => None
  | (n, slot) :: rest => if decide (n = name) then Some slot else find_prop name rest
  end.

(** [name in obj], which [Napi::Object::Has(name)] asks the engine.  A mutable
    key has no [has] trap, so the question goes to its target, which owns
    [value] and [__keyId].  Arrays and functions are modelled without named
    own properties. *)
Definition Object_Has (heap : Heap) (obj : JsValue) (name : string)
  : Completion bool :=
  match obj with
  | JsObject props => Normal (bool_decide (is_Some (find_prop name props)))
  | JsProxy a =>
      match heap !! a with
      | Some _ => Normal (bool_decide (name = "value" ∨ name = "__keyId"))
      | None => Normal false
      end
  | _ => Normal false
  end.

(** [obj[name]], which [Napi::Object::Get(name)] asks the engine.  On a
    mutable key the read goes through the [get] trap of the proxy handler
    (memorystore.cpp:187-211): a function for [toString] and [valueOf], and
    [target.Get("value")] for every other property name, [__keyId] included. *)
Definition Object_Get (heap : Heap) (obj : JsValue) (name : string)
  : Completion JsValue :=
  match obj with
  | JsObject props =>
      match find_prop name props with
      | Some (DataProperty v) => Normal v
      | Some (ThrowingGetter message) => Thrown message
      | None => Normal JsUndefined
      end
  | JsProxy a =>
      match heap !! a with
      | Some tgt =>
          if decide (name = "toString") then Normal (JsFunction "toString")
          else if decide (name = "valueOf") then Normal (JsFunction "valueOf")
          else Normal (target_value tgt)
      | None => Normal JsUndefined
      end
  | _ => Normal JsUndefined
  end.

(** [Napi::Object::Has(name)] *)
Definition Napi_Has (heap : Heap) (obj : JsValue) (name : string) : Napi bool :=
  entering false (Object_Has heap obj name).

(** [Napi::Object::Get(name)].  The empty [Napi::Value] of a failed read
    answers the type tests as [undefined] does ([Napi::Value::Type]) and is
    written [JsUndefined]. *)
Definition Napi_Get (heap : Heap) (obj : JsValue) (name : string) : Napi JsValue :=
  entering JsUndefined (Object_Get heap obj name).

(** The [set] trap of the proxy handler (memorystore.cpp:213-228): an
    assignment [key.prop = newValue] stores [newValue] in [target.value],
    whatever [prop] is, and touches nothing else. *)
Definition Proxy_set (heap : Heap) (a : nat) (prop : string) (newValue : JsValue)
  : Heap :=
  match heap !! a with
  | Some tgt =>
      <[a := {| target_value := newValue; target_keyId := target_keyId tgt |}]> heap
  | None => heap
  end.

End Values.

Abbreviation Heap := (list ProxyTarget).

(** ** The host's [JSON.stringify]

    [env.Global().Get("JSON").Get("stringify").Call(JSON, {value})]: the
    serialization of a value on a given heap, a string or [undefined], or an
    exception (a cyclic structure, a BigInt, a [toJSON] that throws). *)

Class HostJSON `{HostNumber} : Type := {
  JSON_stringify : Heap → JsValue → Completion JsValue;
}.

Section Store.
Context `{HostJSON}.

(** [info[i]]: the i-th argument, [undefined] past the last one. *)
Definition arg (info : list JsValue) (i : nat) : JsValue :=
  default JsUndefined (info !! i).

(** The recurring test [obj.Has(name) && obj.Get(name).IsT()]. *)
Definition Has_and_Is (heap : Heap) (obj : JsValue) (name : string)
    (IsT : JsValue → bool) : Napi bool :=
  has ← Napi_Has heap obj name;
  if has : bool then v ← Napi_Get heap obj name; mret (IsT v) else mret false.

(** The keys [SafeGetString] answers before it reaches its [try] block
    (memorystore.cpp:34-48): [null], [undefined], strings, numbers, booleans. *)
Definition is_plain_key (value : JsValue) : bool :=
  IsNull value || IsUndefined value || IsString value || IsNumber value
  || IsBoolean value.

(** [MemoryStore::SafeGetString] (memorystore.cpp:33-76).  No call inside the
    [try] block raises a C++ exception, so the block runs to one of its
    [return]s.  The three calls of lines 63-65 (the lookups of [JSON] and
    [stringify], and the call) fail together when an exception is pending. *)
Definition SafeGetString (heap : Heap) (value : JsValue) : Napi string :=
  if IsNull value || IsUndefined value then mret ""
  else if IsString value then mret (Utf8Value value)
  else match value with
  | JsNumber d => mret (to_string d)
  | JsBoolean b => mret (if b then "true" else "false")
  | _ =>
      keyId ← (if IsObject value then
                 is_key ← Has_and_Is heap value "__keyId" IsString;
                 if is_key : bool then
                   v ← Napi_Get heap value "__keyId"; mret (Some (Utf8Value v))
                 else mret None
               else mret None);
      match keyId with
      | Some s => mret s
      | None =>
          result ← entering JsUndefined (JSON_stringify heap value);
          if IsString result then mret (Utf8Value result)
          else mret "[object Object]"
      end
  end.

(** ** The store *)

Record StoreItem : Type := {
  value : JsValue;
  keyRef : JsValue;
  isPermanent : bool;
  expiresAt : Z;
  maxAgeMs : N;
}.

Record KeyWrapper : Type := {
  keyString : string;
  proxyRef : JsValue;
}.

(** The fields of [MemoryStore]; [cleanupThread] records whether a thread is
    attached (joinable).  The mutex and the condition variable have no state
    of their own in a sequential run. *)
Record MemoryStore : Type := {
  store : gmap string StoreItem;
  keyWrappers : gmap string KeyWrapper;
  cleanupThread : bool;
  stopCleanup : bool;
  cleanupIntervalMs : N;
}.

Definition with_store (this : MemoryStore) (s : gmap string StoreItem) : MemoryStore :=
  {| store := s; keyWrappers := keyWrappers this;
     cleanupThread := cleanupThread this; stopCleanup := stopCleanup this;
     cleanupIntervalMs := cleanupIntervalMs this |}.

(** The constructor (memorystore.cpp:127-138). *)
Definition MemoryStore_new (heap : Heap) (info : list JsValue)
  : Completion MemoryStore :=
  let initial := {| store := ∅; keyWrappers := ∅; cleanupThread := false;
                    stopCleanup := true; cleanupIntervalMs := 60000%N |} in
  returned (
    if bool_decide (0 < length info)%nat && IsObject (arg info 0) then
      let options := arg info 0 in
      is_num ← Has_and_Is heap options "cleanupInterval" IsNumber;
      if is_num : bool then
        v ← Napi_Get heap options "cleanupInterval";
        mret {| store := ∅; keyWrappers := ∅; cleanupThread := false;
                stopCleanup := true; cleanupIntervalMs := NumberUint32Value v |}
      else mret initial
    else mret initial).

(** The option parsing of [Set] (memorystore.cpp:254-267): the pair
    [(isPermanent, maxAgeMs)]. *)
Definition Set_options (heap : Heap) (info : list JsValue) : Napi (bool * N) :=
  if bool_decide (3 ≤ length info)%nat && IsObject (arg info 2) then
    let options := arg info 2 in
    is_bool ← Has_and_Is heap options "isPermanent" IsBoolean;
    isPermanent ← (if is_bool : bool then
                     v ← Napi_Get heap options "isPermanent"; mret (BooleanValue v)
                   else mret true);
    is_num ← Has_and_Is heap options "maxAgeMs" IsNumber;
    maxAgeMs ← (if is_num : bool then
                  v ← Napi_Get heap options "maxAgeMs"; mret (NumberUint32Value v)
                else mret 0%N);
    mret (isPermanent, maxAgeMs)
  else mret (true, 0%N).

(** The key determination of [Set] (memorystore.cpp:269-295).  Both branches of
    the [keyWrappers] lookup assign [keyId]. *)
Definition Set_keyString (this : MemoryStore) (heap : Heap) (keyValue : JsValue)
  : Napi string :=
  if IsObject keyValue && negb (IsString keyValue) then
    is_key ← Has_and_Is heap keyValue "__keyId" IsString;
    if is_key : bool then
      v ← Napi_Get heap keyValue "__keyId";
      let keyId := Utf8Value v in
      match keyWrappers this !! keyId with
      | Some _ => mret keyId
      | None => mret keyId
      end
    else SafeGetString heap keyValue
  else SafeGetString heap keyValue.

(** The key determination shared by [Get], [Has] and [Delete]
    (memorystore.cpp:327-341, 371-385, 415-429). *)
Definition Get_keyString (heap : Heap) (keyValue : JsValue) : Napi string :=
  if IsObject keyValue && negb (IsString keyValue) then
    is_key ← Has_and_Is heap keyValue "__keyId" IsString;
    if is_key : bool then
      v ← Napi_Get heap keyValue "__keyId"; mret (Utf8Value v)
    else SafeGetString heap keyValue
  else SafeGetString heap keyValue.

(** The deadline computed by [Set] (memorystore.cpp:303-307). *)
Definition Set_expiresAt (now : Z) (isPermanent : bool) (maxAgeMs : N) : Z :=
  if negb isPermanent && bool_decide (0 < maxAgeMs)%N
  then now + milliseconds maxAgeMs
  else time_point_max.

(** [MemoryStore::Set] (memorystore.cpp:243-315).  Nothing between the
    reading of the options and the [return] looks at the pending exception:
    the entry is written whether or not a read has failed. *)
Definition MemoryStore_Set (this : MemoryStore) (heap : Heap) (now : Z)
    (info : list JsValue) : Completion JsValue * MemoryStore :=
  if bool_decide (length info < 2)%nat
  then (Thrown "Wrong number of arguments", this)
  else callback (
    let keyValue := arg info 0 in
    let value := arg info 1 in
    opts ← Set_options heap info;
    keyString ← Set_keyString this heap keyValue;
    let item := {| value := value; keyRef := keyValue;
                   isPermanent := opts.1; maxAgeMs := opts.2;
                   expiresAt := Set_expiresAt now opts.1 opts.2 |} in
    mret (JsBoolean true, with_store this (<[keyString := item]> (store this)))).

(** The expiry test of [Get], [Has] and the sweep
    (memorystore.cpp:348-350, 392-394, 590). *)
Definition is_expired (now : Z) (item : StoreItem) : bool :=
  negb (isPermanent item) && bool_decide (0 < maxAgeMs item)%N
  && bool_decide (expiresAt item ≤ now).

(** The liveness test of [Keys], [GetKeys] and [All]
    (memorystore.cpp:468, 492, 505, 524, 537). *)
Definition is_valid (now : Z) (item : StoreItem) : bool :=
  isPermanent item || bool_decide (maxAgeMs item = 0%N)
  || bool_decide (now < expiresAt item).

(** [MemoryStore::Get] (memorystore.cpp:317-359). *)
Definition MemoryStore_Get (this : MemoryStore) (heap : Heap) (now : Z)
    (info : list JsValue) : Completion JsValue * MemoryStore :=
  if bool_decide (length info < 1)%nat then (Thrown "Key is required", this)
  else callback (
    keyString ← Get_keyString heap (arg info 0);
    match store this !! keyString with
    | Some it =>
        if is_expired now it
        then mret (JsUndefined, with_store this (delete keyString (store this)))
        else mret (value it, this)
    | None => mret (JsUndefined, this)
    end).

(** [MemoryStore::Has] (memorystore.cpp:361-403). *)
Definition MemoryStore_Has (this : MemoryStore) (heap : Heap) (now : Z)
    (info : list JsValue) : Completion JsValue * MemoryStore :=
  if bool_decide (length info < 1)%nat then (Thrown "Key is required", this)
  else callback (
    keyString ← Get_keyString heap (arg info 0);
    match store this !! keyString with
    | Some it =>
        if is_expired now it
        then mret (JsBoolean false, with_store this (delete keyString (store this)))
        else mret (JsBoolean true, this)
    | None => mret (JsBoolean false, this)
    end).

(** [MemoryStore::Delete] (memorystore.cpp:405-440). *)
Definition MemoryStore_Delete (this : MemoryStore) (heap : Heap)
    (info : list JsValue) : Completion JsValue * MemoryStore :=
  if bool_decide (length info < 1)%nat then (Thrown "Key is required", this)
  else callback (
    keyString ← Get_keyString heap (arg info 0);
    match store this !! keyString with
    | Some _ => mret (JsBoolean true, with_store this (delete keyString (store this)))
    | None => mret (JsBoolean false, this)
    end).

(** [MemoryStore::Clear] (memorystore.cpp:442-449). *)
Definition MemoryStore_Clear (this : MemoryStore) : JsValue * MemoryStore :=
  (JsBoolean true, with_store this ∅).

(** [MemoryStore::Size] (memorystore.cpp:451-456): the count is cast to
    [uint32_t] before it becomes a number. *)
Definition MemoryStore_Size (this : MemoryStore) : JsValue * MemoryStore :=
  (JsNumber (Number_New (N.of_nat (size (store this)) `mod` 2 ^ 32)%N), this).

(** ** Result arrays

    [Napi::Array::New(env, n)] has [n] holes, which read as [undefined];
    [arr.Set(i, v)] writes slot [i] and, past the end, extends the array. *)

Definition Array_New (n : nat) : list JsValue := replicate n JsUndefined.

Definition Array_Set (arr : list JsValue) (i : nat) (v : JsValue) : list JsValue :=
  if decide (i < length arr)%nat then <[i := v]> arr
  else arr ++ replicate (i - length arr) JsUndefined ++ [v].

(** The loop [for (pair : store) if (valid) validKeys.push_back(pair.first)]. *)
Definition collect_validKeys (now : Z) (entries : list (string * StoreItem))
  : list string :=
  foldl (λ validKeys pair,
           if is_valid now pair.2 then validKeys ++ [pair.1] else validKeys)
        [] entries.

(** The loop [for (pair : store) if (valid) count++]. *)
Definition count_valid (now : Z) (entries : list (string * StoreItem)) : nat :=
  foldl (λ count pair, if is_valid now pair.2 then S count else count)
        0%nat entries.

(** The loop [for (pair : store) if (valid) arr.Set(index++, f(pair.second))]. *)
Definition fill_valid_from (now : Z) (f : StoreItem → JsValue)
    (entries : list (string * StoreItem)) (start : list JsValue * nat)
  : list JsValue * nat :=
  foldl (λ st pair,
           if is_valid now pair.2
           then (Array_Set st.1 st.2 (f pair.2), S st.2)
           else st)
        start entries.

Definition fill_valid (now : Z) (f : StoreItem → JsValue)
    (entries : list (string * StoreItem)) (arr : list JsValue) : list JsValue * nat :=
  fill_valid_from now f entries (arr, 0%nat).

(** [MemoryStore::Keys] (memorystore.cpp:458-480). *)
Definition MemoryStore_Keys (this : MemoryStore) (now : Z) : JsValue * MemoryStore :=
  let validKeys := collect_validKeys now (map_to_list (store this)) in
  let keysArray :=
    foldl (λ arr i, Array_Set arr i (JsString (default "" (validKeys !! i))))
          (Array_New (length validKeys)) (seq 0 (length validKeys)) in
  (JsArray keysArray, this).

(** [MemoryStore::GetKeys] (memorystore.cpp:482-512). *)
Definition MemoryStore_GetKeys (this : MemoryStore) (now : Z) : JsValue * MemoryStore :=
  let validKeyCount := count_valid now (map_to_list (store this)) in
  let keysArray := Array_New validKeyCount in
  (JsArray (fill_valid now keyRef (map_to_list (store this)) keysArray).1, this).

(** [MemoryStore::All] (memorystore.cpp:514-544). *)
Definition MemoryStore_All (this : MemoryStore) (now : Z) : JsValue * MemoryStore :=
  let validItemCount := count_valid now (map_to_list (store this)) in
  let valuesArray := Array_New validItemCount in
  (JsArray (fill_valid now value (map_to_list (store this)) valuesArray).1, this).

(** ** The sweeper *)

(** [MemoryStore::StartCleanupTask] (memorystore.cpp:546-566). *)
Definition MemoryStore_StartCleanupTask (this : MemoryStore) (info : list JsValue)
  : JsValue * MemoryStore :=
  let this1 :=
    if bool_decide (0 < length info)%nat && IsNumber (arg info 0)
    then {| store := store this; keyWrappers := keyWrappers this;
            cleanupThread := cleanupThread this; stopCleanup := stopCleanup this;
            cleanupIntervalMs := NumberUint32Value (arg info 0) |}
    else this in
  if negb (stopCleanup this1) then (JsBoolean false, this1)
  else (JsBoolean true,
        {| store := store this1; keyWrappers := keyWrappers this1;
           cleanupThread := true; stopCleanup := false;
           cleanupIntervalMs := cleanupIntervalMs this1 |}).

(** [MemoryStore::StopCleanupTask] (memorystore.cpp:568-583); the thread is
    joined before the call returns. *)
Definition MemoryStore_StopCleanupTask (this : MemoryStore) : JsValue * MemoryStore :=
  if stopCleanup this then (JsBoolean false, this)
  else (JsBoolean true,
        {| store := store this; keyWrappers := keyWrappers this;
           cleanupThread := false; stopCleanup := true;
           cleanupIntervalMs := cleanupIntervalMs this |}).

(** [MemoryStore::CleanupExpiredItems] (memorystore.cpp:585-596): one pass
    that erases the expired entries. *)
Definition MemoryStore_CleanupExpiredItems (this : MemoryStore) (now : Z) : MemoryStore :=
  with_store this (filter (λ pair, is_expired now pair.2 = false) (store this)).

(** ** Mutable keys *)

(** [MemoryStore::CreateMutableKey] (memorystore.cpp:149-241).  [now] is the
    clock reading of line 160; the id is ["key_"] followed by the decimal
    tick count.  The target object is allocated at the end of the heap. *)
Definition MemoryStore_CreateMutableKey (this : MemoryStore) (heap : Heap) (now : Z)
    (info : list JsValue) : Completion (JsValue * Heap * MemoryStore) :=
  if bool_decide (length info < 1)%nat then Thrown "Initial value required"
  else
    let initialValue := arg info 0 in
    let uniqueId := "key_" +:+ pretty now in
    let proxyObject := JsProxy (length heap) in
    let keyWrapper := {| keyString := uniqueId; proxyRef := proxyObject |} in
    let target := {| target_value := initialValue; target_keyId := uniqueId |} in
    mret (proxyObject, heap ++ [target],
          {| store := store this;
             keyWrappers := <[uniqueId := keyWrapper]> (keyWrappers this);
             cleanupThread := cleanupThread this; stopCleanup := stopCleanup this;
             cleanupIntervalMs := cleanupIntervalMs this |}).

(** The id of a mutable key: the [__keyId] its target was created with. *)
Definition handle_id (heap : Heap) (key : JsValue) : option string :=
  match key with
  | JsProxy a => target_keyId <$> heap !! a
  | _ => None
  end.

(** The options the JavaScript wrapper passes when the caller gives none:
    [set(key, value, options = { isPermanent: true })] (index.js:31). *)
Definition wrapper_default_options : JsValue :=
  JsObject [("isPermanent", DataProperty (JsBoolean true))].

(** The options object [{ isPermanent: false, maxAgeMs: T }]. *)
Definition ttl_options (T : N) : JsValue :=
  JsObject [("isPermanent", DataProperty (JsBoolean false));
            ("maxAgeMs", DataProperty (JsNumber (Number_New T)))].

(** ** Runs

    The JavaScript heap and the store, and what can happen to them: a method
    call, an assignment to a property of a mutable key, a pass of the cleanup
    worker.  The store after a call is the one the method has left, also when
    the caller gets an exception. *)

Record World : Type := {
  js_heap : Heap;
  native : MemoryStore;
}.

Inductive Call : Type :=
| Call_set (info : list JsValue)
| Call_get (info : list JsValue)
| Call_has (info : list JsValue)
| Call_delete (info : list JsValue)
| Call_clear
| Call_size
| Call_keys
| Call_getKeys
| Call_all
| Call_startCleanupTask (info : list JsValue)
| Call_stopCleanupTask
| Call_createMutableKey (info : list JsValue)
| Assign (key : nat) (prop : string) (newValue : JsValue)
| Sweep.

Definition after_call {V} (w : World) (r : V * MemoryStore) : World :=
  {| js_heap := js_heap w; native := r.2 |}.

Definition step (w : World) (now : Z) (c : Call) : World :=
  let heap := js_heap w in
  let this := native w in
  match c with
  | Call_set info => after_call w (MemoryStore_Set this heap now info)
  | Call_get info => after_call w (MemoryStore_Get this heap now info)
  | Call_has info => after_call w (MemoryStore_Has this heap now info)
  | Call_delete info => after_call w (MemoryStore_Delete this heap info)
  | Call_clear => after_call w (MemoryStore_Clear this)
  | Call_size => after_call w (MemoryStore_Size this)
  | Call_keys => after_call w (MemoryStore_Keys this now)
  | Call_getKeys => after_call w (MemoryStore_GetKeys this now)
  | Call_all => after_call w (MemoryStore_All this now)
  | Call_startCleanupTask info =>
      after_call w (MemoryStore_StartCleanupTask this info)
  | Call_stopCleanupTask => after_call w (MemoryStore_StopCleanupTask this)
  | Call_createMutableKey info =>
      match MemoryStore_CreateMutableKey this heap now info with
      | Normal (_, heap', this') => {| js_heap := heap'; native := this' |}
      | Thrown _ => w
      end
  | Assign a prop newValue =>
      {| js_heap := Proxy_set heap a prop newValue; native := this |}
  | Sweep =>
      if stopCleanup this then w
      else {| js_heap := heap; native := MemoryStore_CleanupExpiredItems this now |}
  end.

(** A run: the events with the clock reading of each. *)
Fixpoint run (w : World) (trace : list (Z * Call)) : World :=
  match trace with
  | [] => w
  | (now, c) :: rest => run (step w now c) rest
  end.

(** The deadline is the "never" sentinel exactly for the entries that are
    permanent or have a zero TTL. *)
Definition deadline_invariant (item : StoreItem) : Prop :=
  expiresAt item = time_point_max ↔ (isPermanent item = true ∨ maxAgeMs item = 0%N).

(** For the other entries the deadline is [now] plus the TTL. *)
Definition deadline_from (now : Z) (item : StoreItem) : Prop :=
  ¬ (isPermanent item = true ∨ maxAgeMs item = 0%N) →
  expiresAt item = now + milliseconds (maxAgeMs item).

(** An entry is accounted for by a list of events when it satisfies the
    deadline invariant and one of the events is a [set] call whose arguments
    are the entry's key and value and whose clock reading is the origin of
    the entry's deadline. *)
Definition entry_justified (events : list (Z * Call)) (item : StoreItem) : Prop :=
  deadline_invariant item ∧
  ∃ now info, (now, Call_set info) ∈ events ∧
    keyRef item = arg info 0 ∧ value item = arg info 1 ∧ deadline_from now item.

(** The events of a run that are [set] calls. *)
Definition is_set_call (c : Call) : bool :=
  match c with Call_set _ => true | _ => false end.

Definition count_set_calls (trace : list (Z * Call)) : nat :=
  length (filter (λ e, is_set_call e.2 = true) trace).

End Store.

(** ** The JavaScript wrapper (index.js)

    [MemoryStoreWrapper] keeps the native store in [_store] and forwards every
    method to it.  What it adds is JavaScript's argument passing: a method
    declared with [n] parameters calls the native method with exactly [n]
    arguments, [undefined] for the ones the caller left out, and a parameter
    with a default takes the default when the argument is [undefined]. *)

(** [ToBoolean] of a number: false for zeros and NaN. *)
Class HostTruthiness `{HostNumber} : Type := {
  Number_ToBoolean : double → bool;
}.

Section Wrapper.
Context `{HostJSON} `{!HostTruthiness}.

(** A parameter declared as [param = dflt]. *)
Definition default_param (v dflt : JsValue) : JsValue :=
  if IsUndefined v then dflt else v.

(** JavaScript's [ToBoolean]. *)
Definition ToBoolean (v : JsValue) : bool :=
  match v with
  | JsUndefined | JsNull => false
  | JsBoolean b => b
  | JsNumber d => Number_ToBoolean d
  | JsString s => negb (bool_decide (s = ""))
  | JsBigInt n => negb (bool_decide (n = 0))
  | JsSymbol _ | JsFunction _ | JsArray _ | JsObject _ | JsProxy _ => true
  end.

(** [v.name] in JavaScript: a TypeError on [null] and [undefined], the
    property read otherwise (own properties only, as in [Object_Get]). *)
Definition JS_member (heap : Heap) (v : JsValue) (name : string)
  : Completion JsValue :=
  if IsNull v || IsUndefined v
  then Thrown "TypeError: Cannot read properties of null or undefined"
  else Object_Get heap v name.

(** [v !== false] *)
Definition is_not_false (v : JsValue) : bool :=
  match v with JsBoolean false => false | _ => true end.

(** The constructor (index.js:4-11). *)
Definition Wrapper_new (heap : Heap) (info : list JsValue) : Completion MemoryStore :=
  let options := default_param (arg info 0) (JsObject []) in
  _store ← MemoryStore_new heap [options];
  autoStartCleanup ← JS_member heap options "autoStartCleanup";
  if is_not_false autoStartCleanup then
    cleanupInterval ← JS_member heap options "cleanupInterval";
    let intervalMs :=
      if ToBoolean cleanupInterval then cleanupInterval
      else JsNumber (Number_New 60000) in
    mret (MemoryStore_StartCleanupTask _store [intervalMs]).2
  else mret _store.

(** [createKey(initialValue)] (index.js:18-20). *)
Definition Wrapper_createKey (_store : MemoryStore) (heap : Heap) (now : Z)
    (info : list JsValue) : Completion (JsValue * Heap * MemoryStore) :=
  MemoryStore_CreateMutableKey _store heap now [arg info 0].

(** [set(key, value, options = { isPermanent: true })] (index.js:31-33). *)
Definition Wrapper_set (_store : MemoryStore) (heap : Heap) (now : Z)
    (info : list JsValue) : Completion JsValue * MemoryStore :=
  MemoryStore_Set _store heap now
    [arg info 0; arg info 1; default_param (arg info 2) wrapper_default_options].

(** [get(key)] (index.js:40-42). *)
Definition Wrapper_get (_store : MemoryStore) (heap : Heap) (now : Z)
    (info : list JsValue) : Completion JsValue * MemoryStore :=
  MemoryStore_Get _store heap now [arg info 0].

(** [has(key)] (index.js:49-51). *)
Definition Wrapper_has (_store : MemoryStore) (heap : Heap) (now : Z)
    (info : list JsValue) : Completion JsValue * MemoryStore :=
  MemoryStore_Has _store heap now [arg info 0].

(** [delete(key)] (index.js:58-60). *)
Definition Wrapper_delete (_store : MemoryStore) (heap : Heap)
    (info : list JsValue) : Completion JsValue * MemoryStore :=
  MemoryStore_Delete _store heap [arg info 0].

(** [startCleanupTask(intervalMs = 60000)] (index.js:99-101). *)
Definition Wrapper_startCleanupTask (_store : MemoryStore) (info : list JsValue)
  : JsValue * MemoryStore :=
  MemoryStore_StartCleanupTask _store
    [default_param (arg info 0) (JsNumber (Number_New 60000))].

End Wrapper.

(** ** The methods of a mutable key

    The [get] trap answers [toString] and [valueOf] with a function made on
    the spot (memorystore.cpp:192-208).  Called as [key.valueOf()], the
    function reads [this.target], which goes through the trap again and yields
    the key's current value, and returns the [value] property of that. *)

Section KeyMethods.
Context `{HostNumber}.

(** The read that [Napi::Object::Get] asks for on a value cast with
    [As<Napi::Object>()]: N-API turns the value into an object first, which
    fails on [null] and [undefined]. *)
Definition Unchecked_Get (heap : Heap) (v : JsValue) (name : string)
  : Completion JsValue :=
  if IsNull v || IsUndefined v then Thrown "An object was expected"
  else Object_Get heap v name.

(** The function returned for [valueOf] (memorystore.cpp:202-207), called
    with [this] bound to [thisObj]. *)
Definition Key_valueOf (heap : Heap) (thisObj : JsValue) : Completion JsValue :=
  returned (
    target ← entering JsUndefined (Unchecked_Get heap thisObj "target");
    entering JsUndefined (Unchecked_Get heap target "value")).

End KeyMethods.

(** ** A small host for running the model

    Numbers are the integer-valued doubles.  The examples never need the text
    of a serialization, so [JSON.stringify] is kept to the answers that do not
    depend on a serializer: [null] and the booleans, the rejection of BigInts,
    and [undefined] (a host's answer for [undefined], functions and symbols)
    for everything else. *)

Module ExampleHost.

Definition format_double (z : Z) : string := pretty z +:+ ".000000".

Definition to_uint32 (z : Z) : N := Z.to_N (z `mod` 2 ^ 32).

Lemma to_uint32_range z : (to_uint32 z < 2 ^ 32)%N.
Proof. unfold to_uint32. pose proof (Z.mod_pos_bound z (2 ^ 32)). lia. Qed.

Lemma to_uint32_of_N n : to_uint32 (Z.of_N n) = (n `mod` 2 ^ 32)%N.
Proof.
  unfold to_uint32. change (2 ^ 32) with (Z.of_N (2 ^ 32)).
  rewrite <- N2Z.inj_mod. apply N2Z.id.
Qed.

#[export] Instance number : HostNumber := {|
  double := Z;
  to_string := format_double;
  Uint32Value := to_uint32;
  Number_New := Z.of_N;
  Uint32Value_range := to_uint32_range;
  Uint32Value_New := λ n _, to_uint32_of_N n;
|}.

Definition stringify (heap : Heap) (v : JsValue) : Completion JsValue :=
  match v with
  | JsNull => Normal (JsString "null")
  | JsBoolean true => Normal (JsString "true")
  | JsBoolean false => Normal (JsString "false")
  | JsBigInt _ => Thrown "TypeError: Do not know how to serialize a BigInt"
  | _ => Normal JsUndefined
  end.

#[export] Instance json : HostJSON := {| JSON_stringify := stringify |}.

(** A freshly constructed store: [new MemoryStore()]. *)
Definition fresh : MemoryStore :=
  {| store := ∅; keyWrappers := ∅; cleanupThread := false;
     stopCleanup := true; cleanupIntervalMs := 60000%N |}.

(** *** Inputs of the examples *)

(** The store after [set("user:1", "admin")] on a fresh store. *)
Definition with_user1 : MemoryStore :=
  with_store fresh
    (<["user:1" := {| value := JsString "admin"; keyRef := JsString "user:1";
                      isPermanent := true; maxAgeMs := 0;
                      expiresAt := time_point_max |}]> ∅).

(** The store after [set("session:1", "x", {isPermanent: false, maxAgeMs: 30})]
    at clock reading 1000 on a fresh store. *)
Definition with_session1 : MemoryStore :=
  with_store fresh
    (<["session:1" := {| value := JsString "x"; keyRef := JsString "session:1";
                         isPermanent := false; maxAgeMs := 30;
                         expiresAt := 30001000 |}]> ∅).

(** A running sweeper with the default interval. *)
Definition running : MemoryStore :=
  {| store := ∅; keyWrappers := ∅; cleanupThread := true;
     stopCleanup := false; cleanupIntervalMs := 60000 |}.

(** [{ get __keyId() { throw new Error("boom") } }] *)
Definition throwing_key : JsValue :=
  JsObject [("__keyId", ThrowingGetter "boom")].

(** [h = createMutableKey("a")] at tick 7, then [set(h, 1)]: one mutable key
    on the heap, one entry in the table. *)
Definition one_key_world : World :=
  run {| js_heap := []; native := fresh |}
      [(7, Call_createMutableKey [JsString "a"]);
       (8, Call_set [JsProxy 0; JsNumber 1])].

(** The scenario of the specification: a permanent entry, an entry with a
    30 ms TTL, and a look at the table 40 ms later. *)
Definition scenario_trace : list (Z * Call) :=
  [(0, Call_set [JsString "user:1"; JsString "admin"]);
   (0, Call_set [JsString "session:1"; JsString "x"; ttl_options 30])].

(** A run with calls that throw: a [set] whose key's [__keyId] getter throws,
    a [set] with an expiring entry, a [get] with a BigInt key. *)
Definition throwing_trace : list (Z * Call) :=
  [(1000, Call_set [throwing_key; JsString "v"; ttl_options 30]);
   (1000, Call_set [JsString "session:1"; JsString "x"; ttl_options 30]);
   (2000, Call_get [JsBigInt 7])].

#[export] Instance truthiness : HostTruthiness :=
  {| Number_ToBoolean := λ z, negb (bool_decide (z = 0)) |}.

(** The store after [set("user:1", "admin")] and, at clock reading 1000,
    [set("session:1", "x", {isPermanent: false, maxAgeMs: 30})]. *)
Definition with_two : MemoryStore :=
  with_store fresh
    (<["session:1" := {| value := JsString "x"; keyRef := JsString "session:1";
                         isPermanent := false; maxAgeMs := 30;
                         expiresAt := 30001000 |}]> (store with_user1)).

(** [{ maxAgeMs: 30 }]: a TTL without [isPermanent: false]. *)
Definition ttl_only_options : JsValue :=
  JsObject [("maxAgeMs", DataProperty (JsNumber 30))].

(** [{ __keyId: "user:1" }]: a plain object that carries a key id. *)
Definition forged_key : JsValue :=
  JsObject [("__keyId", DataProperty (JsString "user:1"))].

End ExampleHost.

(** * Properties *)

Section Properties.
Context `{HostJSON}.

(** ** Basic facts about the model *)

Lemma bind_Normal_inv {A B} (c : Completion A) (f : A → Completion B) (b : B) :
  c ≫= f = Normal b → ∃ a, c = Normal a ∧ f a = Normal b.
Proof. destruct c as [a|m]; simpl; [eauto | discriminate]. Qed.

Lemma completion_Normal_inv {A} (ret a : A) pending :
  completion ret pending = Normal a → pending = None ∧ ret = a.
Proof. destruct pending; simpl; [discriminate|]. by intros [= ->]. Qed.

(** *** Pending exceptions

    Once an exception is pending, every call that enters the engine fails, and
    the exception stays the pending one to the end of the method. *)

Lemma Has_and_Is_pending heap obj name IsT e :
  Has_and_Is heap obj name IsT (Some e) = (false, Some e).
Proof. reflexivity. Qed.

(** With an exception pending [SafeGetString] still answers the keys it knows
    without a call, and the placeholder for every other key. *)
Lemma SafeGetString_pending heap value e :
  ∃ s, SafeGetString heap value (Some e) = (s, Some e) ∧
       (is_plain_key value = false → s = "[object Object]").
Proof.
  destruct value as [| |b|d|s|d|n|f|items|props|a];
    eexists; (split; [reflexivity|]); (discriminate || done).
Qed.

Lemma Get_keyString_pending heap keyValue e :
  Get_keyString heap keyValue (Some e) = SafeGetString heap keyValue (Some e).
Proof.
  unfold Get_keyString.
  destruct (IsObject keyValue && negb (IsString keyValue)); [|done].
  unfold mbind, Napi_bind. by rewrite Has_and_Is_pending.
Qed.

Lemma Get_keyString_sticky heap keyValue pending s :
  Get_keyString heap keyValue pending = (s, None) → pending = None.
Proof.
  destruct pending as [e|]; [|done].
  rewrite Get_keyString_pending.
  destruct (SafeGetString_pending heap keyValue e) as (s' & -> & _). discriminate.
Qed.

(** [Set] resolves a key as [Get], [Has] and [Delete] do. *)
Lemma Set_keyString_Get_keyString this heap keyValue pending :
  Set_keyString this heap keyValue pending = Get_keyString heap keyValue pending.
Proof.
  unfold Set_keyString, Get_keyString.
  destruct (IsObject keyValue && negb (IsString keyValue)); [|done].
  unfold mbind, Napi_bind.
  destruct (Has_and_Is heap keyValue "__keyId" IsString pending) as [[] p]; simpl;
    [|done].
  by destruct (keyWrappers this !! _).
Qed.

Lemma is_valid_not_expired now item :
  is_valid now item = negb (is_expired now item).
Proof.
  unfold is_valid, is_expired.
  destruct (isPermanent item); simpl; [done|].
  repeat case_bool_decide; simpl; try done; lia.
Qed.

Lemma is_expired_spec now item :
  is_expired now item = true ↔
  isPermanent item = false ∧ (0 < maxAgeMs item)%N ∧ expiresAt item ≤ now.
Proof.
  unfold is_expired. rewrite !andb_true_iff, negb_true_iff, !bool_decide_eq_true.
  tauto.
Qed.

Lemma Set_options_default heap keyValue value rest :
  rest = [] ∨ rest = [wrapper_default_options] →
  Set_options heap (keyValue :: value :: rest) None = ((true, 0%N), None).
Proof. by intros [-> | ->]. Qed.

(** *** What the four key operations do, given the key's resolution *)

(** [Set] with two arguments or more: the options are read, the key is
    resolved, the entry is written, and the caller gets [true] or the
    exception a read has left pending. *)
Lemma MemoryStore_Set_run this heap now info opts p1 keyString p2 :
  (2 ≤ length info)%nat →
  Set_options heap info None = (opts, p1) →
  Get_keyString heap (arg info 0) p1 = (keyString, p2) →
  MemoryStore_Set this heap now info
  = (completion (JsBoolean true) p2,
     with_store this
       (<[keyString := {| value := arg info 1; keyRef := arg info 0;
                          isPermanent := opts.1; maxAgeMs := opts.2;
                          expiresAt := Set_expiresAt now opts.1 opts.2 |}]>
          (store this))).
Proof.
  intros Hlen Hopts Hks. unfold MemoryStore_Set.
  rewrite bool_decide_eq_false_2 by lia.
  unfold callback, mbind, Napi_bind. cbv zeta.
  rewrite Hopts. cbn [fst snd]. rewrite Set_keyString_Get_keyString, Hks. done.
Qed.

(** What a returning [Set] has done. *)
Lemma MemoryStore_Set_Normal this heap now info r this' :
  MemoryStore_Set this heap now info = (Normal r, this') →
  ∃ opts keyString,
    (2 ≤ length info)%nat ∧
    Set_options heap info None = (opts, None) ∧
    Get_keyString heap (arg info 0) None = (keyString, None) ∧
    r = JsBoolean true ∧
    this' = with_store this
      (<[keyString := {| value := arg info 1; keyRef := arg info 0;
                         isPermanent := opts.1; maxAgeMs := opts.2;
                         expiresAt := Set_expiresAt now opts.1 opts.2 |}]>
         (store this)).
Proof.
  destruct (decide (length info < 2)%nat) as [Hlen|Hlen].
  { unfold MemoryStore_Set. by rewrite bool_decide_eq_true_2. }
  destruct (Set_options heap info None) as [opts p1] eqn:Hopts.
  destruct (Get_keyString heap (arg info 0) p1) as [ks p2] eqn:Hks.
  rewrite (MemoryStore_Set_run this heap now info opts p1 ks p2) by (done || lia).
  intros [= Hc <-]. apply completion_Normal_inv in Hc as [-> <-].
  pose proof (Get_keyString_sticky _ _ _ _ Hks) as ->.
  exists opts, ks. repeat split; auto. lia.
Qed.

(** [Get], [Has] and [Delete] with a key. *)
Lemma MemoryStore_Get_run this heap now keyValue more keyString pending :
  Get_keyString heap keyValue None = (keyString, pending) →
  MemoryStore_Get this heap now (keyValue :: more)
  = match store this !! keyString with
    | Some it =>
        if is_expired now it
        then (completion JsUndefined pending,
              with_store this (delete keyString (store this)))
        else (completion (value it) pending, this)
    | None => (completion JsUndefined pending, this)
    end.
Proof.
  intros Hks. unfold MemoryStore_Get. simpl.
  unfold callback, mbind, Napi_bind. cbv zeta.
  change (arg (keyValue :: more) 0) with keyValue. rewrite Hks. cbn [fst snd].
  destruct (store this !! keyString) as [it|]; [|done].
  by destruct (is_expired now it).
Qed.

Lemma MemoryStore_Has_run this heap now keyValue more keyString pending :
  Get_keyString heap keyValue None = (keyString, pending) →
  MemoryStore_Has this heap now (keyValue :: more)
  = match store this !! keyString with
    | Some it =>
        if is_expired now it
        then (completion (JsBoolean false) pending,
              with_store this (delete keyString (store this)))
        else (completion (JsBoolean true) pending, this)
    | None => (completion (JsBoolean false) pending, this)
    end.
Proof.
  intros Hks. unfold MemoryStore_Has. simpl.
  unfold callback, mbind, Napi_bind. cbv zeta.
  change (arg (keyValue :: more) 0) with keyValue. rewrite Hks. cbn [fst snd].
  destruct (store this !! keyString) as [it|]; [|done].
  by destruct (is_expired now it).
Qed.

Lemma MemoryStore_Delete_run this heap keyValue more keyString pending :
  Get_keyString heap keyValue None = (keyString, pending) →
  MemoryStore_Delete this heap (keyValue :: more)
  = match store this !! keyString with
    | Some _ => (completion (JsBoolean true) pending,
                 with_store this (delete keyString (store this)))
    | None => (completion (JsBoolean false) pending, this)
    end.
Proof.
  intros Hks. unfold MemoryStore_Delete. simpl.
  unfold callback, mbind, Napi_bind. cbv zeta.
  change (arg (keyValue :: more) 0) with keyValue. rewrite Hks. cbn [fst snd].
  by destruct (store this !! keyString).
Qed.

(** A read of a key that is present and not expired. *)
Lemma MemoryStore_Get_live this heap now keyValue keyString item :
  Get_keyString heap keyValue None = (keyString, None) →
  store this !! keyString = Some item →
  is_expired now item = false →
  MemoryStore_Get this heap now [keyValue] = (Normal (value item), this).
Proof.
  intros Hks Hitem Hlive.
  by rewrite (MemoryStore_Get_run _ _ _ _ _ _ _ Hks), Hitem, Hlive.
Qed.

(** A read of a key that is present and expired. *)
Lemma MemoryStore_Get_expired this heap now keyValue keyString item :
  Get_keyString heap keyValue None = (keyString, None) →
  store this !! keyString = Some item →
  is_expired now item = true →
  MemoryStore_Get this heap now [keyValue]
  = (Normal JsUndefined, with_store this (delete keyString (store this))).
Proof.
  intros Hks Hitem Hdead.
  by rewrite (MemoryStore_Get_run _ _ _ _ _ _ _ Hks), Hitem, Hdead.
Qed.

(** The slot written by [set(k, v)] with the default options. *)
Lemma set_then_get_slot this heap now k v rest r this' :
  rest = [] ∨ rest = [wrapper_default_options] →
  MemoryStore_Set this heap now (k :: v :: rest) = (Normal r, this') →
  ∃ keyString item,
    Get_keyString heap k None = (keyString, None) ∧
    r = JsBoolean true ∧
    store this' !! keyString = Some item ∧
    value item = v ∧ isPermanent item = true.
Proof.
  intros Hrest Hset.
  apply MemoryStore_Set_Normal in Hset as (opts & ks & _ & Hopts & Hks & -> & ->).
  rewrite Set_options_default in Hopts by done. injection Hopts as <-.
  eexists ks, _. split; [exact Hks|]. split; [done|].
  split; [apply lookup_insert_eq|]. done.
Qed.

Lemma set_then_get_returns_value_aux this heap now now' k v rest r this' :
  rest = [] ∨ rest = [wrapper_default_options] →
  MemoryStore_Set this heap now (k :: v :: rest) = (Normal r, this') →
  MemoryStore_Get this' heap now' [k] = (Normal v, this').
Proof.
  intros Hrest Hset.
  destruct (set_then_get_slot _ _ _ _ _ _ _ _ Hrest Hset)
    as (ks & item & Hks & _ & Hitem & <- & Hperm).
  apply (MemoryStore_Get_live _ heap now' k ks item Hks Hitem).
  unfold is_expired. by rewrite Hperm.
Qed.

(** ** Round trip *)

(** X23. When [set(k, v)] with the default options (no third argument, or the
    wrapper's [{ isPermanent: true }]) returns, it returns [true], and a
    [get(k)] that follows it with nothing in between returns exactly [v] and
    leaves the store as [set] left it, whatever the key and the clock readings
    of the two calls. *)
Theorem set_then_get_returns_value this heap now now' k v rest r this' :
  rest = [] ∨ rest = [wrapper_default_options] →
  MemoryStore_Set this heap now (k :: v :: rest) = (Normal r, this') →
  r = JsBoolean true ∧
  MemoryStore_Get this' heap now' [k] = (Normal v, this').
Proof.
  intros Hrest Hset. split.
  - by destruct (set_then_get_slot _ _ _ _ _ _ _ _ Hrest Hset) as (? & ? & _ & -> & _).
  - by eapply set_then_get_returns_value_aux.
Qed.

(** ** C10: [null] and [undefined] share the empty identity *)

(** C10. [null] and [undefined] both resolve to the empty string, in [Set] as
    in [Get]; [set(null, v)] returns [true] and [get(undefined)] then returns
    [v], and the same with the two keys exchanged.  Neither call throws. *)
Theorem null_and_undefined_share_one_slot this heap now now' v :
  Get_keyString heap JsNull None = ("", None) ∧
  Get_keyString heap JsUndefined None = ("", None) ∧
  Set_keyString this heap JsNull None = ("", None) ∧
  Set_keyString this heap JsUndefined None = ("", None) ∧
  (∃ this', MemoryStore_Set this heap now [JsNull; v] = (Normal (JsBoolean true), this') ∧
            MemoryStore_Get this' heap now' [JsUndefined] = (Normal v, this')) ∧
  (∃ this', MemoryStore_Set this heap now [JsUndefined; v] = (Normal (JsBoolean true), this') ∧
            MemoryStore_Get this' heap now' [JsNull] = (Normal v, this')).
Proof.
  assert (Hnull : Get_keyString heap JsNull None = ("", None)) by reflexivity.
  assert (Hundef : Get_keyString heap JsUndefined None = ("", None)) by reflexivity.
  split; [exact Hnull|]. split; [exact Hundef|].
  split; [by rewrite Set_keyString_Get_keyString|].
  split; [by rewrite Set_keyString_Get_keyString|].
  split.
  - eexists. split.
    + by apply (MemoryStore_Set_run this heap now [JsNull; v] (true, 0%N) None "" None).
    + match goal with |- context [<["" := ?it]> _] =>
        apply (MemoryStore_Get_live _ heap now' JsUndefined "" it Hundef)
      end; [apply lookup_insert_eq | done].
  - eexists. split.
    + by apply (MemoryStore_Set_run this heap now [JsUndefined; v] (true, 0%N) None "" None).
    + match goal with |- context [<["" := ?it]> _] =>
        apply (MemoryStore_Get_live _ heap now' JsNull "" it Hnull)
      end; [apply lookup_insert_eq | done].
Qed.

(** ** C5, C6: size and enumeration *)

Lemma collect_validKeys_filter now entries :
  collect_validKeys now entries
  = (filter (λ pair, is_valid now pair.2 = true) entries).*1.
Proof.
  unfold collect_validKeys.
  cut (∀ acc, foldl (λ validKeys pair,
                       if is_valid now pair.2 then validKeys ++ [pair.1] else validKeys)
                    acc entries
              = acc ++ (filter (λ pair, is_valid now pair.2 = true) entries).*1).
  { intros Hgen. apply Hgen. }
  induction entries as [|pair entries IH]; intros acc; simpl.
  - by rewrite app_nil_r.
  - rewrite IH, filter_cons. destruct (is_valid now pair.2) eqn:Hv.
    + rewrite decide_True by done. simpl. by rewrite <- app_assoc.
    + rewrite decide_False by done. done.
Qed.

Lemma count_valid_filter now entries :
  count_valid now entries
  = length (filter (λ pair, is_valid now pair.2 = true) entries).
Proof.
  unfold count_valid.
  cut (∀ n, foldl (λ count pair, if is_valid now pair.2 then S count else count)
                  n entries
            = (n + length (filter (λ pair, is_valid now pair.2 = true) entries))%nat).
  { intros Hgen. apply Hgen. }
  induction entries as [|pair entries IH]; intros n; simpl.
  - lia.
  - rewrite IH, filter_cons. destruct (is_valid now pair.2) eqn:Hv.
    + rewrite decide_True by done. simpl. lia.
    + rewrite decide_False by done. done.
Qed.

(** Writing the next free slot of a pre-sized array. *)
Lemma Array_Set_next pre k v :
  Array_Set (pre ++ replicate (S k) JsUndefined) (length pre) v
  = (pre ++ [v]) ++ replicate k JsUndefined.
Proof.
  unfold Array_Set. rewrite decide_True.
  - rewrite <- (Nat.add_0_r (length pre)) at 1.
    rewrite insert_app_r. simpl. by rewrite <- app_assoc.
  - rewrite length_app, length_replicate. lia.
Qed.

Lemma fill_valid_presized now f entries pre k :
  fill_valid_from now f entries
    (pre ++ replicate (length (filter (λ pair, is_valid now pair.2 = true) entries) + k)
                      JsUndefined, length pre)
  = (pre ++ (f <$> (filter (λ pair, is_valid now pair.2 = true) entries).*2)
         ++ replicate k JsUndefined,
     (length pre + length (filter (λ pair, is_valid now pair.2 = true) entries))%nat).
Proof.
  revert pre. unfold fill_valid_from.
  induction entries as [|pair entries IH]; intros pre.
  - simpl. f_equal. lia.
  - cbn [foldl]. rewrite filter_cons. destruct (is_valid now pair.2) eqn:Hv.
    + rewrite decide_True by done. cbn [length Nat.add fst snd].
      rewrite Array_Set_next.
      replace (S (length pre)) with (length (pre ++ [f pair.2]))
        by (rewrite length_app; simpl; lia).
      rewrite IH. rewrite <- app_assoc. simpl. f_equal.
      rewrite length_app. simpl. lia.
    + rewrite decide_False by done. apply IH.
Qed.

Lemma fill_valid_Array_New now f entries :
  (fill_valid now f entries (Array_New (count_valid now entries))).1
  = f <$> (filter (λ pair, is_valid now pair.2 = true) entries).*2.
Proof.
  unfold fill_valid, Array_New. rewrite count_valid_filter.
  pose proof (fill_valid_presized now f entries [] 0) as Hfill.
  simpl in Hfill. rewrite Nat.add_0_r in Hfill.
  rewrite Hfill. simpl. by rewrite app_nil_r.
Qed.

Lemma keysArray_filled (validKeys done_ todo : list string) :
  validKeys = done_ ++ todo →
  foldl (λ arr i, Array_Set arr i (JsString (default "" (validKeys !! i))))
        ((JsString <$> done_) ++ replicate (length todo) JsUndefined)
        (seq (length done_) (length todo))
  = JsString <$> validKeys.
Proof.
  revert done_. induction todo as [|key todo IH]; intros done_ Heq.
  - simpl. by rewrite Heq, !app_nil_r.
  - cbn [length seq foldl].
    replace (validKeys !! length done_) with (Some key)
      by (by rewrite Heq, list_lookup_middle).
    cbn [default]. rewrite <- (length_fmap JsString done_) at 1.
    rewrite Array_Set_next.
    specialize (IH (done_ ++ [key])).
    rewrite fmap_app, length_app, Nat.add_1_r in IH. simpl in IH.
    apply IH. by rewrite <- app_assoc.
Qed.

Lemma NoDup_fst_filter {A} (P : string * A → Prop) `{∀ x, Decision (P x)}
    (l : list (string * A)) :
  NoDup l.*1 → NoDup (filter P l).*1.
Proof.
  induction l as [|[k a] l IH]; simpl; [done|].
  rewrite !NoDup_cons. intros [Hk Hl]. rewrite filter_cons.
  destruct (decide (P (k, a))); simpl; [|by apply IH].
  rewrite NoDup_cons. split; [|by apply IH].
  intros Hin. apply Hk.
  apply list_elem_of_fmap in Hin as ([k' a'] & -> & Hin).
  apply list_elem_of_filter in Hin as [_ Hin].
  apply list_elem_of_fmap. by exists (k', a').
Qed.

Lemma length_filter_split (entries : list (string * StoreItem)) now :
  length entries
  = (length (filter (λ pair, is_expired now pair.2 = false) entries)
     + length (filter (λ pair, is_expired now pair.2 = true) entries))%nat.
Proof.
  induction entries as [|pair entries IH]; simpl; [done|].
  rewrite !filter_cons. destruct (is_expired now pair.2).
  - rewrite decide_False by done. rewrite decide_True by done. simpl. lia.
  - rewrite decide_True by done. rewrite decide_False by done. simpl. lia.
Qed.

(** C5. As long as the number of entries fits the 32-bit result, [size()]
    returns the number of entries of the table and leaves the table as it is.
    That number counts the entries that are expired at the time of the call
    and have not been evicted: it is the number of live entries plus the number
    of expired ones. *)
Theorem size_is_raw_occupancy this now :
  (N.of_nat (size (store this)) < 2 ^ 32)%N →
  MemoryStore_Size this
  = (JsNumber (Number_New (N.of_nat (size (store this)))), this) ∧
  size (store this)
  = (length (filter (λ pair, is_expired now pair.2 = false) (map_to_list (store this)))
     + length (filter (λ pair, is_expired now pair.2 = true) (map_to_list (store this))))%nat.
Proof.
  intros Hfits. split.
  - unfold MemoryStore_Size. by rewrite N.mod_small.
  - rewrite <- length_filter_split. symmetry. apply length_map_to_list.
Qed.

(** C6. At every state and clock reading there is a list [live] of the
    entries of the table that are not expired (an entry is left out exactly
    when it is not permanent, has a positive TTL and its deadline has passed),
    without repeated keys, such that [keys()] returns the identities of [live]
    and [all()] the values of [live]; both calls return the store unchanged,
    expired entries included. *)
Theorem enumeration_skips_expired_and_keeps_table this now :
  ∃ live : list (string * StoreItem),
    (∀ k item, (k, item) ∈ live ↔
       store this !! k = Some item ∧
       ¬ (isPermanent item = false ∧ (0 < maxAgeMs item)%N ∧ expiresAt item ≤ now)) ∧
    NoDup live.*1 ∧
    MemoryStore_Keys this now = (JsArray (JsString <$> live.*1), this) ∧
    MemoryStore_All this now = (JsArray (value <$> live.*2), this).
Proof.
  exists (filter (λ pair, is_valid now pair.2 = true) (map_to_list (store this))).
  split; [|split; [|split]].
  - intros k item. rewrite list_elem_of_filter, elem_of_map_to_list. simpl.
    rewrite is_valid_not_expired, negb_true_iff, <- is_expired_spec.
    destruct (is_expired now item); intuition congruence.
  - apply NoDup_fst_filter, NoDup_fst_map_to_list.
  - unfold MemoryStore_Keys. rewrite collect_validKeys_filter. f_equal. f_equal.
    set (validKeys := (filter _ _).*1).
    pose proof (keysArray_filled validKeys [] validKeys eq_refl) as Hfill.
    exact Hfill.
  - unfold MemoryStore_All. by rewrite fill_valid_Array_New.
Qed.

(** ** C3: the deadline invariant *)

(** A test for a type that the empty value does not have succeeds only when
    no exception was pending and the read has returned, and then none is
    pending afterwards. *)
Lemma Has_and_Is_true heap obj name IsT pending pending' :
  IsT JsUndefined = false →
  Has_and_Is heap obj name IsT pending = (true, pending') →
  pending = None ∧ pending' = None ∧
  ∃ v, Object_Get heap obj name = Normal v ∧ IsT v = true.
Proof.
  intros Hempty.
  destruct pending as [e|]; [by rewrite Has_and_Is_pending|].
  unfold Has_and_Is, Napi_Has, Napi_Get, mbind, Napi_bind, mret, Napi_ret. simpl.
  destruct (Object_Has heap obj name) as [[]|m]; simpl; [|discriminate..].
  destruct (Object_Get heap obj name) as [v|m]; simpl; [|congruence].
  intros [= Hv <-]. eauto.
Qed.

Lemma NumberUint32Value_range v : (NumberUint32Value v < 2 ^ 32)%N.
Proof. destruct v; simpl; try done. apply Uint32Value_range. Qed.

Lemma Set_options_range heap info pending :
  ((Set_options heap info pending).1.2 < 2 ^ 32)%N.
Proof.
  unfold Set_options.
  destruct (bool_decide (3 ≤ length info)%nat && IsObject (arg info 2)); [|done].
  unfold mbind, Napi_bind, mret, Napi_ret. cbv zeta. cbn [fst snd].
  match goal with
  | |- context [Has_and_Is heap (arg info 2) "maxAgeMs" IsNumber ?p] =>
      destruct (Has_and_Is heap (arg info 2) "maxAgeMs" IsNumber p) as [[] p']
  end; cbn [fst snd]; [|done].
  apply NumberUint32Value_range.
Qed.

(** The deadline [Set] computes, for a clock reading in range. *)
Lemma Set_expiresAt_deadline now isP ttl v k :
  clock_in_range now → (ttl < 2 ^ 32)%N →
  let item := {| value := v; keyRef := k; isPermanent := isP; maxAgeMs := ttl;
                 expiresAt := Set_expiresAt now isP ttl |} in
  deadline_invariant item ∧ deadline_from now item.
Proof.
  intros [Hnow Hmax] Httl item.
  subst item. unfold deadline_invariant, deadline_from, Set_expiresAt; simpl.
  unfold milliseconds, uint32_max in *.
  destruct isP; simpl.
  - split; [tauto|]. intros Hn. exfalso. apply Hn. by left.
  - case_bool_decide as Hpos; simpl.
    + split; [|done]. split.
      * intros Heq. exfalso. lia.
      * intros [?|?]; [done|lia].
    + split; [|intros Hn; exfalso; apply Hn; right; lia].
      split; [intros _; right; lia|done].
Qed.

Lemma entry_justified_mono events events' item :
  entry_justified events item → entry_justified (events ++ events') item.
Proof.
  intros (Hinv & now & info & Hin & Hrest). split; [done|].
  exists now, info. split; [|done]. apply elem_of_app. by left.
Qed.

(** The store a call leaves holds nothing new, except after a [set] with two
    arguments or more, which writes the entry built from its arguments,
    whether the caller gets [true] or an exception. *)
Lemma Set_store this heap now info k item :
  store (MemoryStore_Set this heap now info).2 !! k = Some item →
  store this !! k = Some item ∨
  ∃ opts,
    (2 ≤ length info)%nat ∧ opts = (Set_options heap info None).1 ∧
    item = {| value := arg info 1; keyRef := arg info 0;
              isPermanent := opts.1; maxAgeMs := opts.2;
              expiresAt := Set_expiresAt now opts.1 opts.2 |}.
Proof.
  destruct (decide (length info < 2)%nat) as [Hlen|Hlen].
  { unfold MemoryStore_Set. rewrite bool_decide_eq_true_2 by done. by left. }
  destruct (Set_options heap info None) as [opts p1] eqn:Hopts.
  destruct (Get_keyString heap (arg info 0) p1) as [ks p2] eqn:Hks.
  rewrite (MemoryStore_Set_run this heap now info opts p1 ks p2) by (done || lia).
  simpl. intros Hl. apply lookup_insert_Some in Hl as [[_ <-]|[_ Hl]]; [|by left].
  right. exists opts. split; [lia|done].
Qed.

Lemma Get_store this heap now info k item :
  store (MemoryStore_Get this heap now info).2 !! k = Some item →
  store this !! k = Some item.
Proof.
  destruct info as [|keyValue more]; [done|].
  destruct (Get_keyString heap keyValue None) as [ks p] eqn:Hks.
  rewrite (MemoryStore_Get_run _ _ _ _ _ _ _ Hks).
  destruct (store this !! ks) as [it|]; [|done].
  destruct (is_expired now it); [|done].
  simpl. intros Hl. by apply lookup_delete_Some in Hl as [_ Hl].
Qed.

Lemma Has_store this heap now info k item :
  store (MemoryStore_Has this heap now info).2 !! k = Some item →
  store this !! k = Some item.
Proof.
  destruct info as [|keyValue more]; [done|].
  destruct (Get_keyString heap keyValue None) as [ks p] eqn:Hks.
  rewrite (MemoryStore_Has_run _ _ _ _ _ _ _ Hks).
  destruct (store this !! ks) as [it|]; [|done].
  destruct (is_expired now it); [|done].
  simpl. intros Hl. by apply lookup_delete_Some in Hl as [_ Hl].
Qed.

Lemma Delete_store this heap info k item :
  store (MemoryStore_Delete this heap info).2 !! k = Some item →
  store this !! k = Some item.
Proof.
  destruct info as [|keyValue more]; [done|].
  destruct (Get_keyString heap keyValue None) as [ks p] eqn:Hks.
  rewrite (MemoryStore_Delete_run _ _ _ _ _ _ Hks).
  destruct (store this !! ks) as [it|]; [|done].
  simpl. intros Hl. by apply lookup_delete_Some in Hl as [_ Hl].
Qed.

Lemma step_store w now c k item :
  store (native (step w now c)) !! k = Some item →
  store (native w) !! k = Some item ∨
  ∃ info opts,
    c = Call_set info ∧ (2 ≤ length info)%nat ∧
    opts = (Set_options (js_heap w) info None).1 ∧
    item = {| value := arg info 1; keyRef := arg info 0;
              isPermanent := opts.1; maxAgeMs := opts.2;
              expiresAt := Set_expiresAt now opts.1 opts.2 |}.
Proof.
  destruct c as [info|info|info|info| | | | | |info| |info|a prop nv| ]; simpl.
  - intros Hl. apply Set_store in Hl as [Hl|(opts & Hlen & Hopts & Hitem)];
      [by left|]. right. by exists info, opts.
  - intros Hl. left. by eapply Get_store.
  - intros Hl. left. by eapply Has_store.
  - intros Hl. left. by eapply Delete_store.
  - by rewrite lookup_empty.
  - by left.
  - by left.
  - by left.
  - by left.
  - unfold MemoryStore_StartCleanupTask.
    destruct (bool_decide (0 < length info)%nat && IsNumber (arg info 0)); simpl;
      destruct (stopCleanup (native w)); simpl; by left.
  - unfold MemoryStore_StopCleanupTask.
    destruct (stopCleanup (native w)); simpl; by left.
  - unfold MemoryStore_CreateMutableKey. case_bool_decide; simpl; by left.
  - by left.
  - destruct (stopCleanup (native w)); simpl; [by left|].
    intros Hl. apply map_lookup_filter_Some in Hl as [Hl _]. by left.
Qed.

Lemma run_entries_justified trace w events :
  (∀ k item, store (native w) !! k = Some item → entry_justified events item) →
  Forall (λ e, clock_in_range e.1) trace →
  ∀ k item, store (native (run w trace)) !! k = Some item →
            entry_justified (events ++ trace) item.
Proof.
  revert w events. induction trace as [|[now c] trace IH]; intros w events Hw Hclock.
  - simpl. rewrite app_nil_r. exact Hw.
  - apply Forall_cons in Hclock as [Hnow Hclock]. simpl in Hnow.
    intros k item Hl. simpl in Hl.
    replace (events ++ (now, c) :: trace) with ((events ++ [(now, c)]) ++ trace)
      by (by rewrite <- app_assoc).
    apply (IH (step w now c)) with (k := k); [|done|done].
    clear k item Hl. intros k item Hl.
    apply step_store in Hl as [Hl|(info & opts & -> & _ & Hopts & ->)].
    + by apply entry_justified_mono, Hw with (k := k).
    + assert (Hrange : (opts.2 < 2 ^ 32)%N)
        by (rewrite Hopts; apply Set_options_range).
      destruct (Set_expiresAt_deadline now opts.1 opts.2 (arg info 1) (arg info 0)
                  Hnow Hrange) as [Hinv Hfrom].
      split; [exact Hinv|].
      exists now, info. split; [|done].
      apply elem_of_app. right. by apply list_elem_of_singleton.
Qed.

Lemma MemoryStore_new_empty heap info this0 :
  MemoryStore_new heap info = Normal this0 →
  store this0 = ∅ ∧ keyWrappers this0 = ∅ ∧
  stopCleanup this0 = true ∧ cleanupThread this0 = false.
Proof.
  unfold MemoryStore_new, returned. cbv zeta.
  intros Hnew. apply completion_Normal_inv in Hnew as [_ <-].
  destruct (bool_decide (0 < length info)%nat && IsObject (arg info 0)); [|done].
  unfold mbind, Napi_bind. cbv zeta.
  by destruct (Has_and_Is heap (arg info 0) "cleanupInterval" IsNumber None)
    as [[] p].
Qed.

(** C3. Take any run of the store from its construction, with clock readings
    in range; the calls of the run may return or throw.  Every entry of the
    table after the run has the "never" deadline if and only if it is
    permanent or its TTL is 0, and otherwise its deadline is the clock reading
    of a [set] call of the run, the one that carried the entry's key and
    value, plus the TTL.  A further [set] with two arguments or more writes
    one entry, whether it returns or throws, and that entry has the same
    property: "never" iff permanent or zero TTL, otherwise the time of that
    [set] plus the TTL; when the [set] returns, the entry is under the
    identity of its key.  A [set] with fewer arguments throws and writes
    nothing. *)
Theorem deadline_never_iff_permanent_or_zero_ttl heap info this0 trace :
  MemoryStore_new heap info = Normal this0 →
  Forall (λ e, clock_in_range e.1) trace →
  let w := run {| js_heap := heap; native := this0 |} trace in
  (∀ k item, store (native w) !! k = Some item → entry_justified trace item) ∧
  (∀ now call_info,
     clock_in_range now → (2 ≤ length call_info)%nat →
     let after := MemoryStore_Set (native w) (js_heap w) now call_info in
     ∃ keyString item,
       store after.2 !! keyString = Some item ∧
       (∀ other, other ≠ keyString →
          store after.2 !! other = store (native w) !! other) ∧
       keyRef item = arg call_info 0 ∧
       value item = arg call_info 1 ∧
       deadline_invariant item ∧ deadline_from now item ∧
       (is_Normal after.1 →
        Get_keyString (js_heap w) (arg call_info 0) None = (keyString, None))) ∧
  (∀ now call_info,
     (length call_info < 2)%nat →
     MemoryStore_Set (native w) (js_heap w) now call_info
     = (Thrown "Wrong number of arguments", native w)).
Proof.
  intros Hnew Hclock w. split; [|split].
  - intros k item Hl.
    apply (run_entries_justified trace {| js_heap := heap; native := this0 |} [])
      with (k := k); [|done|done].
    intros k' item'. simpl.
    destruct (MemoryStore_new_empty _ _ _ Hnew) as (-> & _).
    by rewrite lookup_empty.
  - intros now call_info Hnow Hlen after. subst after.
    destruct (Set_options (js_heap w) call_info None) as [opts p1] eqn:Hopts.
    destruct (Get_keyString (js_heap w) (arg call_info 0) p1) as [ks p2] eqn:Hks.
    rewrite (MemoryStore_Set_run _ _ now call_info opts p1 ks p2) by done.
    assert (Hrange : (opts.2 < 2 ^ 32)%N).
    { replace opts with (Set_options (js_heap w) call_info None).1
        by (by rewrite Hopts).
      apply Set_options_range. }
    destruct (Set_expiresAt_deadline now opts.1 opts.2 (arg call_info 1)
                (arg call_info 0) Hnow Hrange) as [Hinv Hfrom].
    eexists ks, _. cbn [fst snd store with_store].
    split; [apply lookup_insert_eq|].
    split; [intros other Hne; by apply lookup_insert_ne|].
    repeat (split; [done|]).
    intros Hret. destruct p2 as [e|]; [done|].
    by rewrite (Get_keyString_sticky _ _ _ _ Hks) in Hks.
  - intros now call_info Hlen. unfold MemoryStore_Set.
    by rewrite bool_decide_eq_true_2.
Qed.

(** ** C2: lazy expiry on read *)

Lemma Set_options_ttl heap k v T :
  (T < 2 ^ 32)%N →
  Set_options heap [k; v; ttl_options T] None = ((false, T), None).
Proof.
  intros HT. unfold Set_options, ttl_options. simpl.
  unfold mbind, Napi_bind, mret, Napi_ret. simpl.
  rewrite Uint32Value_New by lia. by rewrite N.mod_small.
Qed.

(** C2 (as amended). For a TTL [T] with [0 < T < 2^32] (the option is read
    as a 32-bit unsigned number): after [set(k, v, {isPermanent: false,
    maxAgeMs: T})] at clock reading [now], a [get(k)] at a reading before
    [now + T ms] returns [v] and leaves the table alone; a [get(k)] at a reading
    at or after [now + T ms] returns [undefined] and, in that same call, erases
    the entry.  No sweep takes part, whatever the state of the sweeper. *)
Theorem expiring_entry_read_before_and_after_deadline this heap now k v T r this' :
  (0 < T < 2 ^ 32)%N →
  MemoryStore_Set this heap now [k; v; ttl_options T] = (Normal r, this') →
  ∃ keyString,
    Get_keyString heap k None = (keyString, None) ∧
    (∀ now', now' < now + milliseconds T →
       MemoryStore_Get this' heap now' [k] = (Normal v, this')) ∧
    (∀ now', now + milliseconds T ≤ now' →
       ∃ this'',
         MemoryStore_Get this' heap now' [k] = (Normal JsUndefined, this'') ∧
         store this'' = delete keyString (store this') ∧
         store this'' !! keyString = None).
Proof.
  intros [Hpos Hlt] Hset.
  apply MemoryStore_Set_Normal in Hset as (opts & ks & _ & Hopts & Hks & _ & ->).
  rewrite Set_options_ttl in Hopts by done. injection Hopts as <-.
  change (arg [k; v; ttl_options T] 0) with k in *.
  change (arg [k; v; ttl_options T] 1) with v in *.
  exists ks. split; [done|].
  match goal with |- context [<[ks := ?it]> _] => set (item := it) end.
  assert (Hexp : expiresAt item = now + milliseconds T).
  { unfold item, Set_expiresAt. simpl. by rewrite bool_decide_eq_true_2. }
  split.
  - intros now' Hbefore.
    apply (MemoryStore_Get_live _ heap now' k ks item Hks).
    + apply lookup_insert_eq.
    + unfold is_expired. rewrite Hexp. simpl.
      rewrite (bool_decide_eq_false_2 (_ ≤ now')) by lia. apply andb_false_r.
  - intros now' Hafter. eexists. split; [|split].
    + apply (MemoryStore_Get_expired _ heap now' k ks item Hks).
      * apply lookup_insert_eq.
      * unfold is_expired. rewrite Hexp. simpl.
        rewrite bool_decide_eq_true_2 by done. by rewrite bool_decide_eq_true_2.
    + done.
    + apply lookup_delete_eq.
Qed.

(** ** C4: rebinding a mutable key *)

(** [Set] resolves a key as [Get], [Has] and [Delete] do; on a mutable key
    every one of them asks the proxy for [__keyId] and is handed the key's
    current value, which is the identity when it is a string. *)
Lemma mutable_key_probe (heap : Heap) a tgt :
  heap !! a = Some tgt →
  Has_and_Is heap (JsProxy a) "__keyId" IsString None
  = (IsString (target_value tgt), None) ∧
  Napi_Get heap (JsProxy a) "__keyId" None = (target_value tgt, None).
Proof.
  intros Ha.
  unfold Has_and_Is, Napi_Has, Napi_Get, mbind, Napi_bind, entering. simpl.
  by rewrite Ha.
Qed.

Lemma mutable_key_resolves_to_current_string (heap : Heap) a tgt s :
  heap !! a = Some tgt → target_value tgt = JsString s →
  Get_keyString heap (JsProxy a) None = (s, None).
Proof.
  intros Ha Hs. destruct (mutable_key_probe heap a tgt Ha) as [Hprobe Hget].
  unfold Get_keyString. simpl. unfold mbind, Napi_bind.
  rewrite Hprobe, Hs. cbn [fst snd IsString]. by rewrite Hget, Hs.
Qed.


Lemma Proxy_set_lookup (heap : Heap) a tgt prop newValue :
  heap !! a = Some tgt →
  Proxy_set heap a prop newValue !! a
  = Some {| target_value := newValue; target_keyId := target_keyId tgt |}.
Proof.
  intros Ha. unfold Proxy_set. rewrite Ha.
  apply list_lookup_insert_eq. by eapply lookup_lt_Some.
Qed.


(** ** C7: starting a running sweeper *)

(** C7 (as amended). [startCleanupTask] on a running sweeper returns [false]
    and leaves the table, the key registry, the thread and the running flag
    as they were.  The configured interval is replaced by the argument when
    the argument is a number (read as a 32-bit unsigned value), and is kept
    otherwise. *)
Theorem start_while_running_reports_false this info :
  stopCleanup this = false →
  ∃ this',
    MemoryStore_StartCleanupTask this info = (JsBoolean false, this') ∧
    store this' = store this ∧
    keyWrappers this' = keyWrappers this ∧
    cleanupThread this' = cleanupThread this ∧
    stopCleanup this' = false ∧
    cleanupIntervalMs this'
    = (if bool_decide (0 < length info)%nat && IsNumber (arg info 0)
       then NumberUint32Value (arg info 0)
       else cleanupIntervalMs this) ∧
    (IsNumber (arg info 0) = false → this' = this).
Proof.
  intros Hrun. unfold MemoryStore_StartCleanupTask.
  destruct (bool_decide (0 < length info)%nat && IsNumber (arg info 0)) eqn:Hnum;
    simpl; rewrite Hrun; simpl.
  - eexists. repeat split; try done.
    apply andb_true_iff in Hnum as [_ Hnum]. congruence.
  - by eexists.
Qed.

(** ** C8: how keys resolve, and what stays pending *)

(** A key that [SafeGetString] answers before its [try] block resolves to the
    same string whatever is pending, and leaves the pending exception as it
    found it. *)
Lemma Get_keyString_plain heap keyValue pending :
  is_plain_key keyValue = true →
  Get_keyString heap keyValue pending
  = ((SafeGetString heap keyValue None).1, pending).
Proof. by destruct keyValue. Qed.

(** A key that is no object resolves without any property read. *)
Lemma Get_keyString_primitive heap keyValue pending :
  IsObject keyValue = false →
  Get_keyString heap keyValue pending = SafeGetString heap keyValue pending.
Proof. intros Hobj. unfold Get_keyString. by rewrite Hobj. Qed.

(** A symbol or a BigInt goes to [JSON.stringify]; what that throws stays
    pending, and the key resolves to the placeholder. *)
Lemma SafeGetString_through_JSON heap value :
  IsObject value = false → is_plain_key value = false →
  SafeGetString heap value None
  = match JSON_stringify heap value with
    | Normal result =>
        (if IsString result then Utf8Value result else "[object Object]", None)
    | Thrown message => ("[object Object]", Some message)
    end.
Proof.
  intros Hobj Hplain.
  destruct value; try discriminate; unfold SafeGetString; simpl;
    unfold mbind, Napi_bind, entering; simpl;
    (match goal with
     | |- context [JSON_stringify ?h ?v] =>
         destruct (JSON_stringify h v) as [result|m]; simpl; [|done]
     end; by destruct (IsString result)).
Qed.

(** An object without a string [__keyId] goes to [JSON.stringify] as well. *)
Lemma SafeGetString_object heap value :
  IsObject value = true →
  Has_and_Is heap value "__keyId" IsString None = (false, None) →
  SafeGetString heap value None
  = match JSON_stringify heap value with
    | Normal result =>
        (if IsString result then Utf8Value result else "[object Object]", None)
    | Thrown message => ("[object Object]", Some message)
    end.
Proof.
  intros Hobj Hprobe.
  destruct value; try discriminate; unfold SafeGetString; simpl;
    unfold mbind, Napi_bind; rewrite Hprobe; cbn [fst snd];
    unfold entering;
    (match goal with
     | |- context [JSON_stringify ?h ?v] =>
         destruct (JSON_stringify h v) as [result|m]; simpl; [|done]
     end; by destruct (IsString result)).
Qed.

(** A key whose resolution leaves an exception pending has resolved to the
    placeholder. *)
Lemma Get_keyString_throwing heap keyValue keyString e :
  Get_keyString heap keyValue None = (keyString, Some e) →
  keyString = "[object Object]".
Proof.
  destruct (is_plain_key keyValue) eqn:Hplain.
  { rewrite Get_keyString_plain by done. discriminate. }
  destruct (IsObject keyValue) eqn:Hobj.
  - assert (IsString keyValue = false) as Hstr by (by destruct keyValue).
    unfold Get_keyString. rewrite Hobj, Hstr. cbn [andb negb].
    unfold mbind, Napi_bind.
    destruct (Has_and_Is heap keyValue "__keyId" IsString None) as [[] p] eqn:Hprobe;
      cbn [fst snd].
    + apply Has_and_Is_true in Hprobe as (_ & -> & v & Hv & _); [|done].
      unfold Napi_Get, entering. rewrite Hv. discriminate.
    + destruct p as [e'|].
      * destruct (SafeGetString_pending heap keyValue e') as (s & -> & Hs).
        intros [= <- _]. by apply Hs.
      * rewrite (SafeGetString_object _ _ Hobj Hprobe).
        destruct (JSON_stringify heap keyValue); [discriminate|].
        by intros [= <- _].
  - rewrite Get_keyString_primitive by done.
    rewrite (SafeGetString_through_JSON _ _ Hobj Hplain).
    destruct (JSON_stringify heap keyValue); [discriminate|]. by intros [= <- _].
Qed.

(** ** C9: ids of mutable keys *)

(** Keys created at different clock readings have different ids. *)
Lemma keys_of_different_ticks_have_different_ids (now1 now2 : Z) :
  now1 ≠ now2 → "key_" +:+ pretty now1 ≠ "key_" +:+ pretty now2.
Proof.
  intros Hne Heq. apply Hne.
  apply (inj (String.append "key_")) in Heq. by apply (inj pretty) in Heq.
Qed.

(** C9 (the code against it). Two [createMutableKey] calls that read the same
    steady-clock tick return two distinct keys with the same id: the id is
    ["key_"] followed by the tick count and nothing else. *)
Theorem keys_created_in_one_tick_share_an_id this heap now v1 v2 :
  ∃ h1 heap1 this1 h2 heap2 this2,
    MemoryStore_CreateMutableKey this heap now [v1] = Normal (h1, heap1, this1) ∧
    MemoryStore_CreateMutableKey this1 heap1 now [v2] = Normal (h2, heap2, this2) ∧
    h1 ≠ h2 ∧
    handle_id heap2 h1 = Some ("key_" +:+ pretty now) ∧
    handle_id heap2 h2 = Some ("key_" +:+ pretty now).
Proof.
  do 6 eexists. split; [reflexivity|]. split; [reflexivity|].
  split; [|split].
  - intros [= Hlen]. rewrite length_app in Hlen. simpl in Hlen. lia.
  - unfold handle_id.
    rewrite lookup_app_l by (rewrite length_app; simpl; lia).
    by rewrite (list_lookup_middle heap [] _ (length heap) eq_refl).
  - unfold handle_id.
    by rewrite (list_lookup_middle (heap ++ [_]) [] _ _ eq_refl).
Qed.

End Properties.

(** * Further properties of the store *)

Section MoreProperties.
Context `{HostJSON}.

(** ** Reads *)

Lemma with_store_same this : with_store this (store this) = this.
Proof. by destruct this. Qed.

Lemma is_expired_mono now now' item :
  now ≤ now' → is_expired now item = true → is_expired now' item = true.
Proof. rewrite !is_expired_spec. intros Hle (Hp & Httl & Hexp). repeat split; auto. lia. Qed.

(** X1. [has] and [get] resolve the key in the same way and evict in the same
    way: on the same store, key and clock reading either both throw the same
    exception or both return, and they leave the same store in either case.
    [has] answers [true] exactly when the entry is present and not expired,
    and then [get] returns its value and nothing changes; otherwise [has]
    answers [false], [get] returns [undefined], and an expired entry has been
    erased. *)
Theorem has_agrees_with_get this heap now info :
  match MemoryStore_Get this heap now info, MemoryStore_Has this heap now info with
  | (Normal v, this1), (Normal b, this2) =>
      this1 = this2 ∧
      ∃ keyString,
        Get_keyString heap (arg info 0) None = (keyString, None) ∧
        match store this !! keyString with
        | Some item =>
            if is_expired now item
            then b = JsBoolean false ∧ v = JsUndefined ∧
                 store this1 = delete keyString (store this)
            else b = JsBoolean true ∧ v = value item ∧ this1 = this
        | None => b = JsBoolean false ∧ v = JsUndefined ∧ this1 = this
        end
  | (Thrown m1, this1), (Thrown m2, this2) => m1 = m2 ∧ this1 = this2
  | _, _ => False
  end.
Proof.
  destruct info as [|keyValue more]; [done|].
  change (arg (keyValue :: more) 0) with keyValue.
  destruct (Get_keyString heap keyValue None) as [ks p] eqn:Hks.
  rewrite (MemoryStore_Get_run _ _ _ _ _ _ _ Hks),
    (MemoryStore_Has_run _ _ _ _ _ _ _ Hks).
  destruct (store this !! ks) as [item|] eqn:Hitem.
  - destruct (is_expired now item) eqn:Hexp; destruct p as [e|]; simpl;
      try done; (split; [done|]); exists ks; by rewrite Hitem, Hexp.
  - destruct p as [e|]; simpl; [done|]. split; [done|]. exists ks. by rewrite Hitem.
Qed.

(** ** Delete and clear *)

(** X2. [delete(k)] does not look at the clock: it returns [true] exactly when
    an entry is stored under the identity of [k], expired or not, erases that
    entry and no other, and leaves the registry and the sweeper alone.  After
    it [get(k)] returns [undefined], [has(k)] returns [false] and a second
    [delete(k)] returns [false], each without changing the store. *)
Theorem delete_removes_the_entry_expired_or_not this heap now k keyString :
  Get_keyString heap k None = (keyString, None) →
  ∃ this',
    MemoryStore_Delete this heap [k]
    = (Normal (JsBoolean (bool_decide (is_Some (store this !! keyString)))), this') ∧
    store this' = delete keyString (store this) ∧
    (∀ other, other ≠ keyString → store this' !! other = store this !! other) ∧
    keyWrappers this' = keyWrappers this ∧
    stopCleanup this' = stopCleanup this ∧
    cleanupIntervalMs this' = cleanupIntervalMs this ∧
    MemoryStore_Get this' heap now [k] = (Normal JsUndefined, this') ∧
    MemoryStore_Has this' heap now [k] = (Normal (JsBoolean false), this') ∧
    MemoryStore_Delete this' heap [k] = (Normal (JsBoolean false), this').
Proof.
  intros Hks.
  assert (Hafter : ∀ this', store this' !! keyString = None →
    MemoryStore_Get this' heap now [k] = (Normal JsUndefined, this') ∧
    MemoryStore_Has this' heap now [k] = (Normal (JsBoolean false), this') ∧
    MemoryStore_Delete this' heap [k] = (Normal (JsBoolean false), this')).
  { intros this' Hnone.
    rewrite (MemoryStore_Get_run _ _ _ _ _ _ _ Hks),
      (MemoryStore_Has_run _ _ _ _ _ _ _ Hks),
      (MemoryStore_Delete_run _ _ _ _ _ _ Hks).
    by rewrite Hnone. }
  rewrite (MemoryStore_Delete_run _ _ _ _ _ _ Hks).
  destruct (store this !! keyString) as [item|] eqn:Hitem.
  - eexists. split; [by rewrite bool_decide_eq_true_2|].
    split; [done|]. split; [intros other Hne; simpl; by rewrite lookup_delete_ne|].
    repeat (split; [done|]). apply Hafter. simpl. apply lookup_delete_eq.
  - exists this. rewrite bool_decide_eq_false_2 by (by intros [? ?]).
    split; [done|]. split; [by rewrite delete_id|].
    repeat (split; [done|]). by apply Hafter.
Qed.

Lemma Keys_empty this now :
  store this = ∅ → (MemoryStore_Keys this now).1 = JsArray [].
Proof. intros Hs. unfold MemoryStore_Keys. by rewrite Hs, map_to_list_empty. Qed.

Lemma GetKeys_empty this now :
  store this = ∅ → (MemoryStore_GetKeys this now).1 = JsArray [].
Proof. intros Hs. unfold MemoryStore_GetKeys. by rewrite Hs, map_to_list_empty. Qed.

Lemma All_empty this now :
  store this = ∅ → (MemoryStore_All this now).1 = JsArray [].
Proof. intros Hs. unfold MemoryStore_All. by rewrite Hs, map_to_list_empty. Qed.

(** X3. [clear()] returns [true] and leaves a store on which [size()] is 0,
    [keys()], [getKeys()] and [all()] are empty arrays, every [get] that
    returns gives [undefined] and every [has] that returns gives [false], and
    neither changes the store, also when it throws; a second [clear()] returns
    [true] and changes nothing.  The key registry, the sweeper flag, its
    thread and its interval are as before. *)
Theorem clear_empties_the_table this heap now info :
  let this' := (MemoryStore_Clear this).2 in
  (MemoryStore_Clear this).1 = JsBoolean true ∧
  MemoryStore_Size this' = (JsNumber (Number_New 0), this') ∧
  MemoryStore_Keys this' now = (JsArray [], this') ∧
  MemoryStore_GetKeys this' now = (JsArray [], this') ∧
  MemoryStore_All this' now = (JsArray [], this') ∧
  MemoryStore_Clear this' = (JsBoolean true, this') ∧
  match MemoryStore_Get this' heap now info with
  | (Normal v, after) => v = JsUndefined ∧ after = this'
  | (Thrown _, after) => after = this'
  end ∧
  match MemoryStore_Has this' heap now info with
  | (Normal b, after) => b = JsBoolean false ∧ after = this'
  | (Thrown _, after) => after = this'
  end ∧
  keyWrappers this' = keyWrappers this ∧
  stopCleanup this' = stopCleanup this ∧
  cleanupThread this' = cleanupThread this ∧
  cleanupIntervalMs this' = cleanupIntervalMs this.
Proof.
  simpl. split; [done|].
  split; [unfold MemoryStore_Size; simpl; by rewrite map_size_empty|].
  split; [apply injective_projections; [by apply Keys_empty|done]|].
  split; [apply injective_projections; [by apply GetKeys_empty|done]|].
  split; [apply injective_projections; [by apply All_empty|done]|].
  split; [done|].
  split; [|split; [|done]].
  - destruct info as [|keyValue more]; [done|].
    destruct (Get_keyString heap keyValue None) as [ks p] eqn:Hks.
    rewrite (MemoryStore_Get_run _ _ _ _ _ _ _ Hks). simpl.
    rewrite lookup_empty. by destruct p.
  - destruct info as [|keyValue more]; [done|].
    destruct (Get_keyString heap keyValue None) as [ks p] eqn:Hks.
    rewrite (MemoryStore_Has_run _ _ _ _ _ _ _ Hks). simpl.
    rewrite lookup_empty. by destruct p.
Qed.

(** ** Set *)

(** X4. A [set] on a key replaces whatever an earlier [set] on the same key
    wrote, value, options and deadline alike: two [set]s in a row leave the
    store exactly as the second one alone would have. *)
Theorem set_overwrites_the_whole_entry
    this heap now1 now2 k v1 v2 rest1 rest2 r1 this1 r2 this2 :
  MemoryStore_Set this heap now1 (k :: v1 :: rest1) = (Normal r1, this1) →
  MemoryStore_Set this1 heap now2 (k :: v2 :: rest2) = (Normal r2, this2) →
  MemoryStore_Set this heap now2 (k :: v2 :: rest2) = (Normal r2, this2).
Proof.
  intros Hset1 Hset2.
  apply MemoryStore_Set_Normal in Hset1 as (opts1 & ks1 & _ & _ & Hks1 & _ & ->).
  apply MemoryStore_Set_Normal in Hset2 as (opts2 & ks2 & Hlen & Hopts2 & Hks2 & -> & ->).
  change (arg (k :: v1 :: rest1) 0) with k in *.
  change (arg (k :: v2 :: rest2) 0) with k in *.
  rewrite Hks1 in Hks2. injection Hks2 as <-.
  rewrite (MemoryStore_Set_run this heap now2 (k :: v2 :: rest2) opts2 None ks1 None)
    by done.
  unfold with_store. simpl. by rewrite insert_insert_eq.
Qed.

(** X5. A returning [set] writes one slot: every other identity keeps its
    entry, the table grows by one entry when the identity was free and keeps
    its size when it was taken, and the registry and the sweeper are
    untouched. *)
Theorem set_writes_one_slot this heap now info r this' :
  MemoryStore_Set this heap now info = (Normal r, this') →
  ∃ keyString,
    Get_keyString heap (arg info 0) None = (keyString, None) ∧
    is_Some (store this' !! keyString) ∧
    (∀ other, other ≠ keyString → store this' !! other = store this !! other) ∧
    size (store this')
    = match store this !! keyString with
      | Some _ => size (store this)
      | None => S (size (store this))
      end ∧
    keyWrappers this' = keyWrappers this ∧
    stopCleanup this' = stopCleanup this ∧
    cleanupThread this' = cleanupThread this ∧
    cleanupIntervalMs this' = cleanupIntervalMs this.
Proof.
  intros Hset.
  apply MemoryStore_Set_Normal in Hset as (opts & ks & _ & _ & Hks & _ & ->).
  exists ks. split; [done|]. simpl.
  split; [rewrite lookup_insert_eq; by eexists|].
  split; [intros other Hne; by rewrite lookup_insert_ne|].
  split; [|done].
  rewrite map_size_insert. by destruct (store this !! ks).
Qed.

(** ** The sweep *)

Lemma map_to_list_filter_Permutation (P : string * StoreItem → Prop)
    `{∀ x, Decision (P x)} (m : gmap string StoreItem) :
  map_to_list (filter P m) ≡ₚ filter P (map_to_list m).
Proof.
  apply NoDup_Permutation.
  - apply NoDup_map_to_list.
  - apply NoDup_filter, NoDup_map_to_list.
  - intros [k item]. rewrite elem_of_map_to_list, list_elem_of_filter,
      elem_of_map_to_list, map_lookup_filter_Some. tauto.
Qed.

Lemma filter_not_expired_valid now (l : list (string * StoreItem)) :
  filter (λ pair, is_expired now pair.2 = false) l
  = filter (λ pair, is_valid now pair.2 = true) l.
Proof.
  induction l as [|x l IH]; [done|].
  rewrite !filter_cons, IH, is_valid_not_expired.
  by destruct (is_expired now x.2).
Qed.

Lemma Keys_filter this now :
  MemoryStore_Keys this now
  = (JsArray (JsString <$> (filter (λ pair, is_valid now pair.2 = true)
                              (map_to_list (store this))).*1), this).
Proof.
  unfold MemoryStore_Keys. rewrite collect_validKeys_filter. f_equal. f_equal.
  set (validKeys := (filter _ _).*1).
  exact (keysArray_filled validKeys [] validKeys eq_refl).
Qed.

Lemma GetKeys_filter this now :
  MemoryStore_GetKeys this now
  = (JsArray (keyRef <$> (filter (λ pair, is_valid now pair.2 = true)
                            (map_to_list (store this))).*2), this).
Proof. unfold MemoryStore_GetKeys. by rewrite fill_valid_Array_New. Qed.

Lemma All_filter this now :
  MemoryStore_All this now
  = (JsArray (value <$> (filter (λ pair, is_valid now pair.2 = true)
                           (map_to_list (store this))).*2), this).
Proof. unfold MemoryStore_All. by rewrite fill_valid_Array_New. Qed.

(** X6. A pass of [CleanupExpiredItems] at clock reading [now] erases exactly
    the entries that are expired at [now] and keeps every other entry as it
    is; a second pass at the same reading changes nothing.  Afterwards the
    number of entries is the number of keys [keys()] lists at that reading.
    The registry and the sweeper's own fields are untouched. *)
Theorem sweep_erases_exactly_the_expired this now :
  let this' := MemoryStore_CleanupExpiredItems this now in
  (∀ k item, store this' !! k = Some item ↔
             store this !! k = Some item ∧ is_expired now item = false) ∧
  MemoryStore_CleanupExpiredItems this' now = this' ∧
  (∃ keysArray, (MemoryStore_Keys this now).1 = JsArray keysArray ∧
                size (store this') = length keysArray) ∧
  keyWrappers this' = keyWrappers this ∧
  stopCleanup this' = stopCleanup this ∧
  cleanupThread this' = cleanupThread this ∧
  cleanupIntervalMs this' = cleanupIntervalMs this.
Proof.
  cbv zeta. split; [|split; [|split; [|done]]].
  - intros k item. simpl. by rewrite map_lookup_filter_Some.
  - unfold MemoryStore_CleanupExpiredItems, with_store. simpl. f_equal.
    apply map_filter_id. intros k item Hl.
    by apply map_lookup_filter_Some in Hl as [_ Hl].
  - eexists. rewrite Keys_filter. split; [done|].
    cbn [store MemoryStore_CleanupExpiredItems with_store].
    rewrite !length_fmap, <- length_map_to_list.
    rewrite map_to_list_filter_Permutation. f_equal.
    apply filter_not_expired_valid.
Qed.

Lemma sweep_lookup this now ks :
  store (MemoryStore_CleanupExpiredItems this now) !! ks
  = match store this !! ks with
    | Some item => if is_expired now item then None else Some item
    | None => None
    end.
Proof.
  simpl. rewrite map_lookup_filter.
  destruct (store this !! ks) as [item|]; simpl; [|done].
  destruct (is_expired now item) eqn:Hnow.
  - by rewrite option_guard_False by (simpl; congruence).
  - by rewrite option_guard_True by done.
Qed.

Lemma sweep_delete_expired this now ks item :
  store this !! ks = Some item → is_expired now item = true →
  MemoryStore_CleanupExpiredItems (with_store this (delete ks (store this))) now
  = MemoryStore_CleanupExpiredItems this now.
Proof.
  intros Hitem Hnow. unfold MemoryStore_CleanupExpiredItems, with_store. simpl.
  f_equal. rewrite map_filter_delete. apply delete_id.
  rewrite map_lookup_filter, Hitem. simpl.
  by rewrite option_guard_False by (simpl; congruence).
Qed.

Lemma sweep_delete_commute this now ks :
  with_store (MemoryStore_CleanupExpiredItems this now)
    (delete ks (store (MemoryStore_CleanupExpiredItems this now)))
  = MemoryStore_CleanupExpiredItems (with_store this (delete ks (store this))) now.
Proof.
  unfold MemoryStore_CleanupExpiredItems, with_store. simpl.
  by rewrite map_filter_delete.
Qed.

(** X7. Eager and lazy eviction agree.  Sweeping at [now] and then reading a
    key at a later reading [now'] gives the value that reading without the
    sweep gives, throws when that throws, and in either case leaves the store
    that a sweep at [now] would make of the store the plain read leaves. *)
Theorem sweep_then_get_is_get_then_sweep this heap now now' info :
  now ≤ now' →
  match MemoryStore_Get (MemoryStore_CleanupExpiredItems this now) heap now' info,
        MemoryStore_Get this heap now' info with
  | (Normal v1, this1), (Normal v2, this2) =>
      v1 = v2 ∧ this1 = MemoryStore_CleanupExpiredItems this2 now
  | (Thrown m1, this1), (Thrown m2, this2) =>
      m1 = m2 ∧ this1 = MemoryStore_CleanupExpiredItems this2 now
  | _, _ => False
  end.
Proof.
  intros Hle. destruct info as [|keyValue more]; [done|].
  destruct (Get_keyString heap keyValue None) as [ks p] eqn:Hks.
  rewrite !(MemoryStore_Get_run _ _ _ _ _ _ _ Hks), sweep_lookup.
  destruct (store this !! ks) as [item|] eqn:Hitem; [|by destruct p].
  destruct (is_expired now item) eqn:Hnow.
  - rewrite (is_expired_mono now now' item Hle Hnow).
    rewrite (sweep_delete_expired this now ks item Hitem Hnow). by destruct p.
  - destruct (is_expired now' item).
    + rewrite sweep_delete_commute. by destruct p.
    + by destruct p.
Qed.


(** ** Enumerations *)

(** X8. [keys()], [getKeys()] and [all()] walk the table in one order and
    apply one test: at every state and clock reading there is a list of the
    entries that are not expired such that [keys()] returns their identities,
    [getKeys()] the keys they were stored with and [all()] their values, entry
    by entry in that order.  The three arrays have the same length, at most
    the size of the table, and [getKeys()] returns the store unchanged. *)
Theorem enumerations_list_the_same_entries this now :
  ∃ live : list (string * StoreItem),
    (∀ k item, (k, item) ∈ live ↔
       store this !! k = Some item ∧ is_expired now item = false) ∧
    MemoryStore_Keys this now = (JsArray ((λ pair, JsString pair.1) <$> live), this) ∧
    MemoryStore_GetKeys this now = (JsArray ((λ pair, keyRef pair.2) <$> live), this) ∧
    MemoryStore_All this now = (JsArray ((λ pair, value pair.2) <$> live), this) ∧
    (length live ≤ size (store this))%nat.
Proof.
  exists (filter (λ pair, is_valid now pair.2 = true) (map_to_list (store this))).
  split; [|split; [|split; [|split]]].
  - intros k item. rewrite list_elem_of_filter, elem_of_map_to_list. simpl.
    rewrite is_valid_not_expired, negb_true_iff. tauto.
  - rewrite Keys_filter. by rewrite <- list_fmap_compose.
  - rewrite GetKeys_filter. by rewrite <- list_fmap_compose.
  - rewrite All_filter. by rewrite <- list_fmap_compose.
  - rewrite <- length_map_to_list. apply length_filter.
Qed.

(** ** Options *)

(** X9. An entry expires only when it was stored with [isPermanent: false]
    and a positive [maxAgeMs] together.  When the options of a returning [set]
    read as permanent or as a zero TTL (no options, a TTL without
    [isPermanent: false], [isPermanent: false] without a TTL, fields of the
    wrong type), [get] with the same key returns the value at every later
    clock reading and never evicts it. *)
Theorem entry_without_both_options_never_expires this heap now now' info opts r this' :
  MemoryStore_Set this heap now info = (Normal r, this') →
  Set_options heap info None = (opts, None) →
  opts.1 = true ∨ opts.2 = 0%N →
  MemoryStore_Get this' heap now' [arg info 0] = (Normal (arg info 1), this').
Proof.
  intros Hset Hopts Hnever.
  apply MemoryStore_Set_Normal in Hset as (opts' & ks & _ & Hopts' & Hks & _ & ->).
  rewrite Hopts in Hopts'. injection Hopts' as <-.
  match goal with |- context [<[ks := ?it]> _] => set (item := it) end.
  apply (MemoryStore_Get_live _ heap now' (arg info 0) ks item Hks).
  - apply lookup_insert_eq.
  - unfold is_expired, item. simpl. destruct Hnever as [-> | ->]; [done|].
    by rewrite andb_false_r.
Qed.

(** ** The key registry *)

(** X10. The registry of mutable keys is written by [createMutableKey] and
    never decides anything: [Set], the one method that looks a key id up in
    it, resolves the key to the same identity whether the id is registered or
    not.  Two stores that differ only in their registries give the same
    result (the same value or the same exception) and the same table for
    every [set], and each keeps its own registry. *)
Theorem key_registry_decides_nothing this registry heap now info :
  let other := {| store := store this; keyWrappers := registry;
                  cleanupThread := cleanupThread this;
                  stopCleanup := stopCleanup this;
                  cleanupIntervalMs := cleanupIntervalMs this |} in
  match MemoryStore_Set this heap now info, MemoryStore_Set other heap now info with
  | (Normal r1, this1), (Normal r2, this2) =>
      r1 = r2 ∧ store this1 = store this2 ∧
      keyWrappers this1 = keyWrappers this ∧ keyWrappers this2 = registry
  | (Thrown m1, this1), (Thrown m2, this2) =>
      m1 = m2 ∧ store this1 = store this2 ∧
      keyWrappers this1 = keyWrappers this ∧ keyWrappers this2 = registry
  | _, _ => False
  end.
Proof.
  cbv zeta. destruct (decide (length info < 2)%nat) as [Hlen|Hlen].
  { unfold MemoryStore_Set. by rewrite !bool_decide_eq_true_2. }
  destruct (Set_options heap info None) as [opts p1] eqn:Hopts.
  destruct (Get_keyString heap (arg info 0) p1) as [ks p2] eqn:Hks.
  rewrite !(MemoryStore_Set_run _ heap now info opts p1 ks p2) by (done || lia).
  by destruct p2.
Qed.

(** ** Identities *)

(** X11. Which keys meet in one slot.  A string is its own identity.  A
    mutable key whose current value is the string [s], and any object that
    has a string [s] as its [__keyId] property, have the identity [s].  A
    boolean has the identity ["true"] or ["false"], a number the text
    [std::to_string] gives it, [null] and [undefined] the empty string.  [Set]
    computes the same identity as [Get], [Has] and [Delete]. *)
Theorem identities_of_keys (heap : Heap) this :
  (∀ s, Get_keyString heap (JsString s) None = (s, None)) ∧
  (∀ a tgt s, heap !! a = Some tgt → target_value tgt = JsString s →
      Get_keyString heap (JsProxy a) None = (s, None)) ∧
  (∀ props s, find_prop "__keyId" props = Some (DataProperty (JsString s)) →
      Get_keyString heap (JsObject props) None = (s, None)) ∧
  (∀ b, Get_keyString heap (JsBoolean b) None
        = (if b then "true" else "false", None)) ∧
  (∀ d, Get_keyString heap (JsNumber d) None = (to_string d, None)) ∧
  Get_keyString heap JsNull None = ("", None) ∧
  Get_keyString heap JsUndefined None = ("", None) ∧
  (∀ key pending,
     Set_keyString this heap key pending = Get_keyString heap key pending).
Proof.
  split; [done|].
  split; [intros a tgt s; apply mutable_key_resolves_to_current_string|].
  split.
  { intros props s Hp.
    unfold Get_keyString, Has_and_Is, Napi_Has, Napi_Get, mbind, Napi_bind,
      entering. simpl.
    by rewrite Hp. }
  split; [by intros []|].
  split; [done|]. split; [done|]. split; [done|].
  apply Set_keyString_Get_keyString.
Qed.

(** X12. Keys with one identity are interchangeable.  When [k1] and [k2]
    resolve to the same identity, an entry stored with [set(k1, v)] is the one
    [get(k2)] returns and [has(k2)] reports, and [delete(k2)] erases it, so
    that [get(k1)] finds nothing afterwards. *)
Theorem keys_with_one_identity_share_a_slot
    this heap now now' k1 k2 keyString v r this' :
  Get_keyString heap k1 None = (keyString, None) →
  Get_keyString heap k2 None = (keyString, None) →
  MemoryStore_Set this heap now [k1; v] = (Normal r, this') →
  MemoryStore_Get this' heap now' [k2] = (Normal v, this') ∧
  MemoryStore_Has this' heap now' [k2] = (Normal (JsBoolean true), this') ∧
  ∃ this'',
    MemoryStore_Delete this' heap [k2] = (Normal (JsBoolean true), this'') ∧
    MemoryStore_Get this'' heap now' [k1] = (Normal JsUndefined, this'').
Proof.
  intros Hk1 Hk2 Hset.
  destruct (set_then_get_slot this heap now k1 v [] r this' (or_introl eq_refl) Hset)
    as (ks & item & Hks & _ & Hitem & <- & Hperm).
  rewrite Hk1 in Hks. injection Hks as <-.
  assert (Hlive : is_expired now' item = false)
    by (unfold is_expired; by rewrite Hperm).
  split; [by apply (MemoryStore_Get_live _ heap now' k2 keyString item)|].
  split.
  { by rewrite (MemoryStore_Has_run _ _ _ _ _ _ _ Hk2), Hitem, Hlive. }
  eexists. split.
  { by rewrite (MemoryStore_Delete_run _ _ _ _ _ _ Hk2), Hitem. }
  rewrite (MemoryStore_Get_run _ _ _ _ _ _ _ Hk1). simpl.
  by rewrite lookup_delete_eq.
Qed.

(** ** Mutable keys *)

(** X13. [createMutableKey] with an initial value returns a new key at a
    fresh heap address, with that value and the id ["key_"] followed by the
    clock reading, and registers it under that id.  It leaves the table, the
    sweeper, every other registration and every existing key as they were: a
    key that resolved to its string value still does.  The new key resolves to
    its initial value when that is a string.  Without an argument the call
    throws and nothing is created. *)
Theorem createMutableKey_adds_one_key this heap now initialValue rest :
  let id := "key_" +:+ pretty now in
  let h := JsProxy (length heap) in
  MemoryStore_CreateMutableKey this heap now [] = Thrown "Initial value required" ∧
  ∃ heap' this',
    MemoryStore_CreateMutableKey this heap now (initialValue :: rest)
    = Normal (h, heap', this') ∧
    heap' !! length heap = Some {| target_value := initialValue; target_keyId := id |} ∧
    length heap' = S (length heap) ∧
    (∀ a tgt, heap !! a = Some tgt → heap' !! a = Some tgt) ∧
    (∀ a tgt s, heap !! a = Some tgt → target_value tgt = JsString s →
       Get_keyString heap' (JsProxy a) None = (s, None)) ∧
    (∀ s, initialValue = JsString s → Get_keyString heap' h None = (s, None)) ∧
    keyWrappers this' !! id = Some {| keyString := id; proxyRef := h |} ∧
    (∀ other, other ≠ id → keyWrappers this' !! other = keyWrappers this !! other) ∧
    store this' = store this ∧
    stopCleanup this' = stopCleanup this ∧
    cleanupThread this' = cleanupThread this ∧
    cleanupIntervalMs this' = cleanupIntervalMs this.
Proof.
  cbv zeta. split; [done|].
  eexists _, _. split; [reflexivity|].
  change (arg (initialValue :: rest) 0) with initialValue.
  assert (Hnew : (heap ++ [{| target_value := initialValue;
                              target_keyId := "key_" +:+ pretty now |}])
                 !! length heap
                 = Some {| target_value := initialValue;
                           target_keyId := "key_" +:+ pretty now |})
    by (by rewrite (list_lookup_middle heap [] _ (length heap) eq_refl)).
  split; [exact Hnew|].
  split; [rewrite length_app; simpl; lia|].
  split; [intros a tgt Ha; by apply lookup_app_l_Some|].
  split.
  { intros a tgt s Ha Hs.
    apply (mutable_key_resolves_to_current_string _ a tgt s); [|done].
    by apply lookup_app_l_Some. }
  split.
  { intros s ->. by eapply mutable_key_resolves_to_current_string. }
  split; [simpl; by rewrite lookup_insert_eq|].
  split; [intros other Hne; simpl; by rewrite lookup_insert_ne|].
  done.
Qed.

(** ** Errors *)

(** X14. The four key operations throw a TypeError when the key argument is
    missing ([set] also when the value is missing) and change nothing.  With
    a key that is [null], [undefined], a string, a number or a boolean they
    never throw: [set(k, v)] returns [true] and stores under the key's
    identity, and [get], [has] and [delete] return, whatever arguments follow
    the key.  A symbol or a BigInt goes to [JSON.stringify]: the four calls
    throw exactly when that throws, with its exception, and [set] has then
    stored the entry under the placeholder all the same. *)
Theorem keys_that_are_no_objects_throw_only_through_JSON this heap now k v more :
  IsObject k = false →
  MemoryStore_Set this heap now [] = (Thrown "Wrong number of arguments", this) ∧
  MemoryStore_Set this heap now [k] = (Thrown "Wrong number of arguments", this) ∧
  MemoryStore_Get this heap now [] = (Thrown "Key is required", this) ∧
  MemoryStore_Has this heap now [] = (Thrown "Key is required", this) ∧
  MemoryStore_Delete this heap [] = (Thrown "Key is required", this) ∧
  ∃ keyString pending this',
    SafeGetString heap k None = (keyString, pending) ∧
    (is_plain_key k = true → pending = None) ∧
    (is_plain_key k = false →
     match JSON_stringify heap k with
     | Normal _ => pending = None
     | Thrown message => pending = Some message ∧ keyString = "[object Object]"
     end) ∧
    MemoryStore_Set this heap now [k; v] = (completion (JsBoolean true) pending, this') ∧
    is_Some (store this' !! keyString) ∧
    (∀ e, (MemoryStore_Get this heap now (k :: more)).1 = Thrown e ↔ pending = Some e) ∧
    (∀ e, (MemoryStore_Has this heap now (k :: more)).1 = Thrown e ↔ pending = Some e) ∧
    (∀ e, (MemoryStore_Delete this heap (k :: more)).1 = Thrown e ↔ pending = Some e).
Proof.
  intros Hobj. repeat (split; [done|]).
  destruct (SafeGetString heap k None) as [ks p] eqn:Hsafe.
  assert (Hks : Get_keyString heap k None = (ks, p))
    by (by rewrite Get_keyString_primitive).
  eexists ks, p, _. split; [done|].
  split.
  { intros Hplain. rewrite (Get_keyString_plain _ _ _ Hplain) in Hks. congruence. }
  split.
  { intros Hplain. rewrite (SafeGetString_through_JSON _ _ Hobj Hplain) in Hsafe.
    destruct (JSON_stringify heap k); by injection Hsafe as <- <-. }
  split.
  { by apply (MemoryStore_Set_run this heap now [k; v] (true, 0%N) None ks p). }
  split; [simpl; rewrite lookup_insert_eq; by eexists|].
  rewrite (MemoryStore_Get_run _ _ _ _ _ _ _ Hks),
    (MemoryStore_Has_run _ _ _ _ _ _ _ Hks),
    (MemoryStore_Delete_run _ _ _ _ _ _ Hks).
  split; [|split]; intros e.
  - destruct (store this !! ks) as [item|]; [destruct (is_expired now item)|];
      destruct p; simpl; split; congruence.
  - destruct (store this !! ks) as [item|]; [destruct (is_expired now item)|];
      destruct p; simpl; split; congruence.
  - destruct (store this !! ks) as [item|]; destruct p; simpl; split; congruence.
Qed.

(** X24. A call that throws because of its key has acted all the same, on
    the placeholder slot.  When the resolution of [k] leaves an exception
    pending, [k] has resolved to ["[object Object]"]: [set(k, v)] throws the
    exception and has stored [v] as a permanent entry under the placeholder,
    replacing what was there; [delete(k)] throws it and has erased the entry
    under the placeholder; [get(k)] and [has(k)] throw it and have evicted
    that entry if it had expired.  No other slot is touched. *)
Theorem calls_that_throw_act_on_the_placeholder_slot
    this heap now k v keyString e :
  Get_keyString heap k None = (keyString, Some e) →
  let slot := "[object Object]" in
  keyString = slot ∧
  MemoryStore_Set this heap now [k; v]
  = (Thrown e,
     with_store this
       (<[slot := {| value := v; keyRef := k; isPermanent := true;
                     maxAgeMs := 0; expiresAt := time_point_max |}]>
          (store this))) ∧
  MemoryStore_Delete this heap [k]
  = (Thrown e,
     match store this !! slot with
     | Some _ => with_store this (delete slot (store this))
     | None => this
     end) ∧
  MemoryStore_Get this heap now [k]
  = (Thrown e,
     match store this !! slot with
     | Some item =>
         if is_expired now item then with_store this (delete slot (store this))
         else this
     | None => this
     end) ∧
  MemoryStore_Has this heap now [k] = (Thrown e, (MemoryStore_Get this heap now [k]).2).
Proof.
  intros Hks slot. pose proof (Get_keyString_throwing _ _ _ _ Hks) as ->.
  split; [done|].
  split.
  { by apply (MemoryStore_Set_run this heap now [k; v] (true, 0%N) None
                "[object Object]" (Some e)). }
  rewrite (MemoryStore_Get_run _ _ _ _ _ _ _ Hks),
    (MemoryStore_Has_run _ _ _ _ _ _ _ Hks),
    (MemoryStore_Delete_run _ _ _ _ _ _ Hks).
  subst slot.
  destruct (store this !! "[object Object]") as [item|]; [|done].
  by destruct (is_expired now item).
Qed.

(** ** The sweeper's switch *)

(** X15. [startCleanupTask] always leaves the sweeper running and returns
    whether it was stopped before; [stopCleanupTask] always leaves it stopped
    with no thread attached and returns whether it was running before, and
    it returns [false] exactly when it changed nothing.  Neither touches the
    table or the registry, and [stopCleanupTask] keeps the interval.  After a
    stop, a second stop returns [false] and a start returns [true]. *)
Theorem start_and_stop_switch_the_sweeper this info :
  let started := MemoryStore_StartCleanupTask this info in
  let stopped := MemoryStore_StopCleanupTask this in
  stopCleanup started.2 = false ∧
  started.1 = JsBoolean (stopCleanup this) ∧
  store started.2 = store this ∧ keyWrappers started.2 = keyWrappers this ∧
  stopCleanup stopped.2 = true ∧
  stopped.1 = JsBoolean (negb (stopCleanup this)) ∧
  (stopped.1 = JsBoolean false ↔ stopped.2 = this) ∧
  (stopCleanup this = false → cleanupThread stopped.2 = false) ∧
  store stopped.2 = store this ∧ keyWrappers stopped.2 = keyWrappers this ∧
  cleanupIntervalMs stopped.2 = cleanupIntervalMs this ∧
  MemoryStore_StopCleanupTask stopped.2 = (JsBoolean false, stopped.2) ∧
  (MemoryStore_StartCleanupTask stopped.2 info).1 = JsBoolean true ∧
  (MemoryStore_StopCleanupTask started.2).1 = JsBoolean true.
Proof.
  cbv zeta. unfold MemoryStore_StartCleanupTask, MemoryStore_StopCleanupTask.
  destruct (bool_decide (0 < length info)%nat && IsNumber (arg info 0));
    destruct this as [st kw th [] iv]; simpl; repeat split; try done;
    intros Heq; by inversion Heq.
Qed.

(** ** Runs *)

Lemma Set_size this heap now info :
  (size (store (MemoryStore_Set this heap now info).2) ≤ S (size (store this)))%nat.
Proof.
  destruct (decide (length info < 2)%nat) as [Hlen|Hlen].
  { unfold MemoryStore_Set. rewrite bool_decide_eq_true_2 by done. simpl. lia. }
  destruct (Set_options heap info None) as [opts p1] eqn:Hopts.
  destruct (Get_keyString heap (arg info 0) p1) as [ks p2] eqn:Hks.
  rewrite (MemoryStore_Set_run this heap now info opts p1 ks p2) by (done || lia).
  cbn [snd store with_store]. rewrite map_size_insert.
  destruct (store this !! ks); unfold id; lia.
Qed.

Lemma Get_size this heap now info :
  (size (store (MemoryStore_Get this heap now info).2) ≤ size (store this))%nat.
Proof.
  destruct info as [|keyValue more]; [done|].
  destruct (Get_keyString heap keyValue None) as [ks p] eqn:Hks.
  rewrite (MemoryStore_Get_run _ _ _ _ _ _ _ Hks).
  destruct (store this !! ks) as [it|] eqn:Hit; [|done].
  destruct (is_expired now it); [|done].
  cbn [snd store with_store]. rewrite map_size_delete, Hit. unfold id. lia.
Qed.

Lemma Has_size this heap now info :
  (size (store (MemoryStore_Has this heap now info).2) ≤ size (store this))%nat.
Proof.
  destruct info as [|keyValue more]; [done|].
  destruct (Get_keyString heap keyValue None) as [ks p] eqn:Hks.
  rewrite (MemoryStore_Has_run _ _ _ _ _ _ _ Hks).
  destruct (store this !! ks) as [it|] eqn:Hit; [|done].
  destruct (is_expired now it); [|done].
  cbn [snd store with_store]. rewrite map_size_delete, Hit. unfold id. lia.
Qed.

Lemma Delete_size this heap info :
  (size (store (MemoryStore_Delete this heap info).2) ≤ size (store this))%nat.
Proof.
  destruct info as [|keyValue more]; [done|].
  destruct (Get_keyString heap keyValue None) as [ks p] eqn:Hks.
  rewrite (MemoryStore_Delete_run _ _ _ _ _ _ Hks).
  destruct (store this !! ks) as [it|] eqn:Hit; [|done].
  cbn [snd store with_store]. rewrite map_size_delete, Hit. unfold id. lia.
Qed.

(** A step adds at most one entry, and only when it is a [set] call, whether
    the call returns or throws. *)
Lemma step_size w now c :
  (size (store (native (step w now c)))
   ≤ size (store (native w)) + (if is_set_call c then 1 else 0))%nat.
Proof.
  destruct c as [info|info|info|info| | | | | |info| |info|a prop nv| ]; simpl;
    try lia.
  - pose proof (Set_size (native w) (js_heap w) now info). lia.
  - pose proof (Get_size (native w) (js_heap w) now info). lia.
  - pose proof (Has_size (native w) (js_heap w) now info). lia.
  - pose proof (Delete_size (native w) (js_heap w) info). lia.
  - rewrite map_size_empty. lia.
  - unfold MemoryStore_StartCleanupTask.
    destruct (bool_decide (0 < length info)%nat && IsNumber (arg info 0)); simpl;
      destruct (stopCleanup (native w)); simpl; lia.
  - unfold MemoryStore_StopCleanupTask.
    destruct (stopCleanup (native w)); simpl; lia.
  - unfold MemoryStore_CreateMutableKey. case_bool_decide; simpl; lia.
  - destruct (stopCleanup (native w)); simpl; [lia|].
    pose proof (map_size_filter (λ pair : string * StoreItem,
                                   is_expired now pair.2 = false)
                                (store (native w))). lia.
Qed.

Lemma run_size trace w :
  (size (store (native (run w trace)))
   ≤ size (store (native w)) + count_set_calls trace)%nat.
Proof.
  revert w. induction trace as [|[now c] trace IH]; intros w; simpl; [lia|].
  specialize (IH (step w now c)). pose proof (step_size w now c) as Hstep.
  unfold count_set_calls in *. rewrite filter_cons. simpl.
  destruct (is_set_call c); simpl; lia.
Qed.

(** X16. Entries come from [set] and from nowhere else.  A new store is
    empty, and after any run of method calls, key assignments and sweeps,
    whichever of the calls return and whichever throw, the table holds at most
    as many entries as the run has [set] calls; a run without [set] leaves it
    empty. *)
Theorem table_holds_at_most_one_entry_per_set heap info this0 trace :
  MemoryStore_new heap info = Normal this0 →
  let w := run {| js_heap := heap; native := this0 |} trace in
  store this0 = ∅ ∧
  (size (store (native w)) ≤ count_set_calls trace)%nat ∧
  (count_set_calls trace = 0%nat → store (native w) = ∅).
Proof.
  intros Hnew w. destruct (MemoryStore_new_empty _ _ _ Hnew) as (Hempty & _).
  pose proof (run_size trace {| js_heap := heap; native := this0 |}) as Hsize.
  simpl in Hsize. rewrite Hempty, map_size_empty in Hsize.
  split; [done|]. split; [exact Hsize|].
  intros Hzero. apply map_size_empty_inv. subst w. lia.
Qed.

(** ** Reading and writing a mutable key *)

(** X20. On a mutable key every property is the value.  Assigning to any
    property of the key, whatever its name, replaces the current value, and
    reading any property but [toString] and [valueOf] then gives the assigned
    value back, [__keyId] included; the id stored in the target is kept.
    Other keys on the heap keep their values, and the heap keeps its size. *)
Theorem key_assignment_round_trip (heap : Heap) a tgt written read newValue :
  heap !! a = Some tgt →
  read ≠ "toString" → read ≠ "valueOf" →
  let heap' := Proxy_set heap a written newValue in
  Object_Get heap' (JsProxy a) read = Normal newValue ∧
  Object_Get heap (JsProxy a) read = Normal (target_value tgt) ∧
  handle_id heap' (JsProxy a) = Some (target_keyId tgt) ∧
  (∀ b, b ≠ a → heap' !! b = heap !! b) ∧
  length heap' = length heap.
Proof.
  intros Ha Hts Hvo heap'. subst heap'.
  pose proof (Proxy_set_lookup heap a tgt written newValue Ha) as Ha'.
  split; [simpl; rewrite Ha'; by rewrite !decide_False|].
  split; [simpl; rewrite Ha; by rewrite !decide_False|].
  split; [simpl; by rewrite Ha'|].
  unfold Proxy_set. rewrite Ha.
  split; [intros b Hb; by rewrite list_lookup_insert_ne|].
  apply length_insert.
Qed.

(** X21. [key.valueOf()] does not return the key's current value: it returns
    the [value] property of the current value.  For a key whose current value
    is a string, a number, a boolean, a symbol or a BigInt the result is
    [undefined], for [null] and [undefined] the call throws, and for an object
    it is that object's own [value] property. *)
Theorem valueOf_reads_the_value_of_the_value (heap : Heap) a tgt :
  heap !! a = Some tgt →
  let current := target_value tgt in
  Key_valueOf heap (JsProxy a) = Unchecked_Get heap current "value" ∧
  (IsObject current = false → IsNull current = false → IsUndefined current = false →
     Key_valueOf heap (JsProxy a) = Normal JsUndefined) ∧
  (IsNull current || IsUndefined current = true →
     ∃ message, Key_valueOf heap (JsProxy a) = Thrown message) ∧
  (∀ props, current = JsObject props →
     Key_valueOf heap (JsProxy a) = Object_Get heap (JsObject props) "value").
Proof.
  intros Ha current.
  assert (Hv : Key_valueOf heap (JsProxy a) = Unchecked_Get heap current "value").
  { unfold Key_valueOf, returned, mbind, Napi_bind, entering. cbv zeta.
    assert (Unchecked_Get heap (JsProxy a) "target" = Normal current) as ->
      by (unfold Unchecked_Get; simpl; by rewrite Ha).
    cbn [fst snd].
    by destruct (Unchecked_Get heap current "value"). }
  split; [exact Hv|]. rewrite Hv. unfold Unchecked_Get.
  split; [|split].
  - intros Hobj Hnull Hundef. rewrite Hnull, Hundef. simpl.
    by destruct current.
  - intros ->. by eexists.
  - by intros props ->.
Qed.

(** ** Keys and has *)

(** X22. [keys()] and [has] agree: at one clock reading, a string is among
    the identities [keys()] returns exactly when [has] of that string returns
    [true], and in that case [has] leaves the store unchanged. *)
Theorem keys_lists_what_has_reports this heap now s :
  (∃ keysArray, (MemoryStore_Keys this now).1 = JsArray keysArray ∧
                JsString s ∈ keysArray)
  ↔ MemoryStore_Has this heap now [JsString s] = (Normal (JsBoolean true), this).
Proof.
  rewrite Keys_filter.
  rewrite (MemoryStore_Has_run this heap now (JsString s) [] s None eq_refl).
  cbn [fst].
  split.
  - intros (keysArray & [= <-] & Hin).
    apply list_elem_of_fmap in Hin as (k & Hk & Hin).
    apply list_elem_of_fmap in Hin as ([k' item] & Hk' & Hin).
    simpl in Hk'. injection Hk as Hk. subst k k'.
    apply list_elem_of_filter in Hin as [Hvalid Hin].
    apply elem_of_map_to_list in Hin. simpl in *. rewrite Hin.
    rewrite is_valid_not_expired, negb_true_iff in Hvalid. by rewrite Hvalid.
  - intros Hhas. eexists. split; [done|].
    destruct (store this !! s) as [item|] eqn:Hitem; [|discriminate].
    destruct (is_expired now item) eqn:Hexp; [discriminate|].
    apply list_elem_of_fmap. exists s. split; [done|].
    apply list_elem_of_fmap. exists (s, item). split; [done|].
    apply list_elem_of_filter. split.
    + simpl. by rewrite is_valid_not_expired, Hexp.
    + by apply elem_of_map_to_list.
Qed.

End MoreProperties.

(** * Properties of the JavaScript wrapper *)

Section WrapperProperties.
Context `{HostJSON} `{!HostTruthiness}.

Lemma Uint32Value_60000 : Uint32Value (Number_New 60000) = 60000%N.
Proof. rewrite Uint32Value_New by lia. by rewrite N.mod_small. Qed.

(** X17. Through the wrapper a missing argument is never rejected: the
    native arity checks cannot fire, because the wrapper always passes a full
    argument list.  With a first argument that is missing, [null], a string,
    a number or a boolean, and no options object, [set], [get], [has],
    [delete] and [createKey] all return; [set()] with no arguments at all
    stores [undefined] as a permanent entry under the empty identity, which
    [has()] then reports as present. *)
Theorem wrapper_never_rejects_missing_arguments _store heap now info :
  is_plain_key (arg info 0) = true →
  IsObject (arg info 2) = false →
  is_Normal (Wrapper_set _store heap now info).1 ∧
  is_Normal (Wrapper_get _store heap now info).1 ∧
  is_Normal (Wrapper_has _store heap now info).1 ∧
  is_Normal (Wrapper_delete _store heap info).1 ∧
  is_Normal (Wrapper_createKey _store heap now info) ∧
  ∃ this',
    Wrapper_set _store heap now [] = (Normal (JsBoolean true), this') ∧
    store this' !! "" = Some {| value := JsUndefined; keyRef := JsUndefined;
                                isPermanent := true; maxAgeMs := 0;
                                expiresAt := time_point_max |} ∧
    Wrapper_has this' heap now [] = (Normal (JsBoolean true), this') ∧
    Wrapper_get this' heap now [] = (Normal JsUndefined, this').
Proof.
  intros Hkey Hopts.
  pose proof (Get_keyString_plain heap (arg info 0) None Hkey) as Hks.
  split.
  { unfold Wrapper_set.
    assert (Hso : Set_options heap
      [arg info 0; arg info 1; default_param (arg info 2) wrapper_default_options]
      None = ((true, 0%N), None)).
    { unfold default_param. by destruct (arg info 2). }
    pose proof (λ Hlen, MemoryStore_Set_run _store heap now _ _ _ _ _ Hlen Hso Hks)
      as Hrun.
    by rewrite Hrun by (simpl; lia). }
  unfold Wrapper_get, Wrapper_has, Wrapper_delete, Wrapper_createKey.
  rewrite (MemoryStore_Get_run _ _ _ _ _ _ _ Hks),
    (MemoryStore_Has_run _ _ _ _ _ _ _ Hks),
    (MemoryStore_Delete_run _ _ _ _ _ _ Hks).
  split; [destruct (store _store !! _) as [item|]; [|done];
          by destruct (is_expired now item)|].
  split; [destruct (store _store !! _) as [item|]; [|done];
          by destruct (is_expired now item)|].
  split; [by destruct (store _store !! _)|].
  split; [done|].
  eexists. split.
  { unfold Wrapper_set.
    by apply (MemoryStore_Set_run _store heap now
                [JsUndefined; JsUndefined; wrapper_default_options]
                (true, 0%N) None "" None); [simpl; lia|..]. }
  split; [apply lookup_insert_eq|].
  unfold Wrapper_has, Wrapper_get.
  rewrite (MemoryStore_Has_run _ heap now (arg [] 0) [] "" None eq_refl),
    (MemoryStore_Get_run _ heap now (arg [] 0) [] "" None eq_refl).
  cbn [store with_store]. by rewrite lookup_insert_eq.
Qed.

(** X18. The wrapper's [startCleanupTask()] without an interval passes its
    default, 60000, to the native method, which stores it before looking at
    the sweeper: whatever interval was configured, and whether or not the
    sweeper was running, the interval is 60000 afterwards and the sweeper
    runs.  The call returns whether the sweeper was stopped before. *)
Theorem wrapper_start_without_interval_sets_60000 _store info :
  IsUndefined (arg info 0) = true →
  let started := Wrapper_startCleanupTask _store info in
  cleanupIntervalMs started.2 = 60000%N ∧
  stopCleanup started.2 = false ∧
  started.1 = JsBoolean (stopCleanup _store) ∧
  store started.2 = store _store ∧
  keyWrappers started.2 = keyWrappers _store.
Proof.
  intros Hundef. cbv zeta.
  unfold Wrapper_startCleanupTask, default_param. rewrite Hundef.
  unfold MemoryStore_StartCleanupTask. simpl.
  change (arg [JsNumber (Number_New 60000)] 0) with (JsNumber (Number_New 60000)).
  simpl. rewrite Uint32Value_60000.
  by destruct (stopCleanup _store).
Qed.

(** The native constructor keeps the interval of 60000 unless the option is a
    number. *)
Lemma MemoryStore_new_interval heap options native0 cleanupInterval :
  MemoryStore_new heap [options] = Normal native0 →
  JS_member heap options "cleanupInterval" = Normal cleanupInterval →
  IsNumber cleanupInterval = false →
  cleanupIntervalMs native0 = 60000%N.
Proof.
  unfold MemoryStore_new, returned, JS_member. cbv zeta.
  intros Hnew Hci Hnn. apply completion_Normal_inv in Hnew as [_ <-].
  change (arg [options] 0) with options. simpl (bool_decide _).
  destruct (IsNull options || IsUndefined options); [done|].
  destruct (IsObject options); [|done]. cbn [andb].
  unfold Has_and_Is, Napi_Has, Napi_Get, mbind, Napi_bind, entering.
  rewrite Hci.
  destruct (Object_Has heap options "cleanupInterval") as [[]|]; simpl;
    by rewrite ?Hnn.
Qed.

(** X19. A wrapper that is constructed has an empty table and an empty
    registry.  Its sweeper is stopped exactly when the options carry
    [autoStartCleanup: false] and runs otherwise, and when it runs its
    interval is the [cleanupInterval] option if that is a number that
    JavaScript counts as true (read as a 32-bit unsigned value), and 60000 in
    every other case. *)
Theorem wrapper_constructor_starts_the_sweeper heap info _store :
  Wrapper_new heap info = Normal _store →
  let options := default_param (arg info 0) (JsObject []) in
  store _store = ∅ ∧ keyWrappers _store = ∅ ∧
  ∃ autoStartCleanup,
    JS_member heap options "autoStartCleanup" = Normal autoStartCleanup ∧
    stopCleanup _store = negb (is_not_false autoStartCleanup) ∧
    cleanupThread _store = is_not_false autoStartCleanup ∧
    (is_not_false autoStartCleanup = true →
     ∃ cleanupInterval,
       JS_member heap options "cleanupInterval" = Normal cleanupInterval ∧
       cleanupIntervalMs _store
       = match cleanupInterval with
         | JsNumber d => if Number_ToBoolean d then Uint32Value d else 60000%N
         | _ => 60000%N
         end).
Proof.
  intros Hnew options. revert Hnew. unfold Wrapper_new. fold options.
  intros Hnew.
  apply bind_Normal_inv in Hnew as (native0 & Hnative & Hnew).
  apply bind_Normal_inv in Hnew as (auto & Hauto & Hnew).
  destruct (MemoryStore_new_empty _ _ _ Hnative) as (Hs & Hk & Hstop & Hthread).
  destruct (is_not_false auto) eqn:Hnf.
  - apply bind_Normal_inv in Hnew as (ci & Hci & Hnew). injection Hnew as <-.
    unfold MemoryStore_StartCleanupTask. simpl.
    set (intervalMs := if ToBoolean ci then ci else JsNumber (Number_New 60000)).
    change (arg [intervalMs] 0) with intervalMs.
    destruct (IsNumber intervalMs) eqn:Hnum; simpl; rewrite Hstop; simpl.
    + split; [done|]. split; [done|]. exists auto. rewrite Hnf.
      repeat (split; [done|]). intros _. exists ci. split; [done|].
      subst intervalMs. pose proof Uint32Value_60000 as H60000.
      destruct ci; simpl in *;
        repeat match goal with
        | H : context [if ?b then _ else _] |- _ => destruct b eqn:?; simpl in *
        end;
        done.
    + split; [done|]. split; [done|]. exists auto. rewrite Hnf.
      repeat (split; [done|]). intros _. exists ci. split; [done|].
      assert (Hci_nn : IsNumber ci = false).
      { subst intervalMs. destruct (ToBoolean ci); [done|discriminate]. }
      rewrite (MemoryStore_new_interval _ _ _ _ Hnative Hci Hci_nn).
      by destruct ci.
  - injection Hnew as <-. split; [done|]. split; [done|].
    exists auto. rewrite Hnf, Hstop, Hthread. repeat (split; [done|]). done.
Qed.

End WrapperProperties.

Module Examples.
Import ExampleHost.

Example ex_new : MemoryStore_new [] [] = Normal fresh.
Proof. reflexivity. Qed.

Example ex_set_get :
  ∃ this', MemoryStore_Set fresh [] 5 [JsString "user:1"; JsString "admin"]
           = (Normal (JsBoolean true), this') ∧
           MemoryStore_Get this' [] 9 [JsString "user:1"]
           = (Normal (JsString "admin"), this').
Proof. eexists. split; reflexivity. Qed.

Example ex_number_key : SafeGetString [] (JsNumber 42) None = ("42.000000", None).
Proof. reflexivity. Qed.

Example ex_bigint_key :
  SafeGetString [] (JsBigInt 7) None
  = ("[object Object]", Some "TypeError: Do not know how to serialize a BigInt").
Proof. reflexivity. Qed.

Example ex_scenario :
  let w := run {| js_heap := []; native := fresh |} scenario_trace in
  let later := milliseconds 40 in
  MemoryStore_Has (native w) [] later [JsString "user:1"]
  = (Normal (JsBoolean true), native w) ∧
  (MemoryStore_Size (native w)).1 = JsNumber 2 ∧
  (MemoryStore_Keys (native w) later).1 = JsArray [JsString "user:1"] ∧
  (MemoryStore_All (native w) later).1 = JsArray [JsString "admin"] ∧
  ∃ this',
    MemoryStore_Get (native w) [] later [JsString "session:1"]
    = (Normal JsUndefined, this') ∧
    (MemoryStore_Size this').1 = JsNumber 1.
Proof.
  repeat split; try reflexivity. eexists. split; reflexivity.
Qed.

(** *** Witnesses *)

Lemma expiring_entry_witness :
  (0 < 30 < 2 ^ 32)%N ∧
  MemoryStore_Set fresh [] 1000 [JsString "session:1"; JsString "x"; ttl_options 30]
  = (Normal (JsBoolean true), with_session1) ∧
  ∃ keyString,
    Get_keyString [] (JsString "session:1") None = (keyString, None) ∧
    (∀ now', now' < 1000 + milliseconds 30 →
       MemoryStore_Get with_session1 [] now' [JsString "session:1"]
       = (Normal (JsString "x"), with_session1)) ∧
    (∀ now', 1000 + milliseconds 30 ≤ now' →
       ∃ this'',
         MemoryStore_Get with_session1 [] now' [JsString "session:1"]
         = (Normal JsUndefined, this'') ∧
         store this'' = delete keyString (store with_session1) ∧
         store this'' !! keyString = None).
Proof.
  split; [lia|]. split; [reflexivity|].
  apply (expiring_entry_read_before_and_after_deadline fresh [] 1000
           (JsString "session:1") (JsString "x") 30 (JsBoolean true) with_session1).
  - lia.
  - reflexivity.
Defined.

Lemma deadline_invariant_witness :
  MemoryStore_new [] [] = Normal fresh ∧
  Forall (λ e, clock_in_range e.1) throwing_trace ∧
  let w := run {| js_heap := []; native := fresh |} throwing_trace in
  is_Some (store (native w) !! "[object Object]") ∧
  (∀ k item, store (native w) !! k = Some item → entry_justified throwing_trace item).
Proof.
  assert (Hclock : Forall (λ e : Z * Call, clock_in_range e.1) throwing_trace).
  { repeat constructor; simpl; lia || reflexivity. }
  split; [reflexivity|]. split; [exact Hclock|].
  split; [eexists; reflexivity|].
  apply (deadline_never_iff_permanent_or_zero_ttl [] [] fresh throwing_trace
           eq_refl Hclock).
Defined.


Lemma size_is_raw_occupancy_witness :
  (N.of_nat (size (store with_session1)) < 2 ^ 32)%N ∧
  MemoryStore_Size with_session1 = (JsNumber 1, with_session1) ∧
  size (store with_session1)
  = (length (filter (λ pair, is_expired 99000000 pair.2 = false)
               (map_to_list (store with_session1)))
     + length (filter (λ pair, is_expired 99000000 pair.2 = true)
                 (map_to_list (store with_session1))))%nat.
Proof.
  split; [reflexivity|].
  apply (size_is_raw_occupancy with_session1 99000000). reflexivity.
Defined.

Lemma start_while_running_witness :
  stopCleanup running = false ∧
  ∃ this',
    MemoryStore_StartCleanupTask running [] = (JsBoolean false, this') ∧
    store this' = store running ∧
    keyWrappers this' = keyWrappers running ∧
    cleanupThread this' = cleanupThread running ∧
    stopCleanup this' = false ∧
    cleanupIntervalMs this' = cleanupIntervalMs running ∧
    (IsNumber (arg [] 0) = false → this' = running).
Proof.
  split; [reflexivity|].
  apply (start_while_running_reports_false running [] eq_refl).
Defined.

(** *** Counterexamples *)

(** C2 as stated fails for [T = 2^32]: the TTL is read as 0, the entry gets
    the "never" deadline, and a [get] exactly [T] milliseconds after the [set]
    still returns the value and keeps the entry. *)
Lemma expiry_fails_for_ttl_of_2_pow_32 :
  ∃ this',
    (0 < 2 ^ 32)%N ∧
    MemoryStore_Set fresh [] 0 [JsString "k"; JsString "v"; ttl_options (2 ^ 32)]
    = (Normal (JsBoolean true), this') ∧
    0 + milliseconds (2 ^ 32) ≤ milliseconds (2 ^ 32) ∧
    MemoryStore_Get this' [] (milliseconds (2 ^ 32)) [JsString "k"]
    = (Normal (JsString "v"), this') ∧
    JsString "v" ≠ JsUndefined ∧
    is_Some (store this' !! "k").
Proof.
  eexists. split; [reflexivity|]. split; [reflexivity|].
  split; [reflexivity|]. split; [reflexivity|]. split; [discriminate|].
  eexists. reflexivity.
Qed.

(** C7 as stated fails: a second [startCleanupTask(100)] on a running sweeper
    returns [false] and yet replaces the interval 60000 by 100. *)
Lemma start_while_running_changes_interval :
  MemoryStore_StartCleanupTask fresh [] = (JsBoolean true, running) ∧
  stopCleanup running = false ∧
  ∃ this',
    MemoryStore_StartCleanupTask running [JsNumber 100] = (JsBoolean false, this') ∧
    cleanupIntervalMs running = 60000%N ∧
    cleanupIntervalMs this' = 100%N ∧
    this' ≠ running.
Proof.
  split; [reflexivity|]. split; [reflexivity|]. eexists. split; [reflexivity|].
  split; [reflexivity|]. split; [reflexivity|]. discriminate.
Qed.

(** *** C1: a key that [JSON.stringify] rejects *)

(** C1 (the code against it). With the BigInt key [7n], [set(7n, "v")] does
    not return: [JSON.stringify] throws inside [SafeGetString], no C++
    exception reaches the [catch] that was written for it, and the TypeError
    is still pending when [Set] returns, so the caller gets the TypeError.
    [Set] has stored the entry all the same, under the placeholder identity.
    The [get(7n)] that follows throws the same TypeError instead of returning
    ["v"]. *)
Lemma bigint_key_breaks_the_round_trip :
  let bigint := "TypeError: Do not know how to serialize a BigInt" in
  let after := MemoryStore_Set fresh [] 0 [JsBigInt 7; JsString "v"] in
  after.1 = Thrown bigint ∧
  store after.2 !! "[object Object]"
  = Some {| value := JsString "v"; keyRef := JsBigInt 7; isPermanent := true;
            maxAgeMs := 0; expiresAt := time_point_max |} ∧
  MemoryStore_Get after.2 [] 0 [JsBigInt 7] = (Thrown bigint, after.2) ∧
  (MemoryStore_Get after.2 [] 0 [JsBigInt 7]).1 ≠ Normal (JsString "v").
Proof. repeat split; try reflexivity. discriminate. Qed.

(** *** C8: a key whose [__keyId] getter throws *)

(** C8 (the code against it). With a key whose [__keyId] getter throws, the
    read [keyObj.Get("__keyId")] of [Set], [Get], [Has] and [Delete]
    (memorystore.cpp:276, 333, 377, 421) fails and leaves the getter's
    exception pending.  The methods go on: [SafeGetString] does answer the
    placeholder for that key, and [Set] stores the entry under it, but nothing
    clears the pending exception, so each of the four calls throws it to the
    caller. *)
Lemma throwing_key_aborts_every_operation :
  (MemoryStore_Set fresh [] 0 [throwing_key; JsString "v"]).1 = Thrown "boom" ∧
  (MemoryStore_Get fresh [] 0 [throwing_key]).1 = Thrown "boom" ∧
  (MemoryStore_Has fresh [] 0 [throwing_key]).1 = Thrown "boom" ∧
  (MemoryStore_Delete fresh [] [throwing_key]).1 = Thrown "boom" ∧
  Get_keyString [] throwing_key None = ("[object Object]", Some "boom") ∧
  SafeGetString [] throwing_key None = ("[object Object]", Some "boom") ∧
  store (MemoryStore_Set fresh [] 0 [throwing_key; JsString "v"]).2
    !! "[object Object]"
  = Some {| value := JsString "v"; keyRef := throwing_key; isPermanent := true;
            maxAgeMs := 0; expiresAt := time_point_max |}.
Proof. repeat split; reflexivity. Qed.

(** *** Witnesses of the further properties *)

Lemma set_then_get_returns_value_witness :
  (@nil JsValue = [] ∨ [] = [wrapper_default_options]) ∧
  MemoryStore_Set fresh [] 5 [JsString "user:1"; JsString "admin"]
  = (Normal (JsBoolean true), with_user1) ∧
  JsBoolean true = JsBoolean true ∧
  MemoryStore_Get with_user1 [] 9 [JsString "user:1"]
  = (Normal (JsString "admin"), with_user1).
Proof.
  split; [left; reflexivity|]. split; [reflexivity|].
  apply (set_then_get_returns_value fresh [] 5 9 (JsString "user:1")
           (JsString "admin") []).
  - left. reflexivity.
  - reflexivity.
Defined.

Lemma delete_witness :
  Get_keyString [] (JsString "session:1") None = ("session:1", None) ∧
  ∃ this',
    MemoryStore_Delete with_two [] [JsString "session:1"]
    = (Normal (JsBoolean true), this') ∧
    store this' = delete "session:1" (store with_two) ∧
    MemoryStore_Has this' [] 99000000 [JsString "session:1"]
    = (Normal (JsBoolean false), this').
Proof.
  split; [reflexivity|].
  destruct (delete_removes_the_entry_expired_or_not with_two [] 99000000
              (JsString "session:1") "session:1" eq_refl)
    as (this' & Hdel & Hstore & _ & _ & _ & _ & _ & Hhas & _).
  exists this'. split; [exact Hdel|]. split; [exact Hstore|exact Hhas].
Defined.

Lemma set_overwrites_witness :
  let this2 := with_store fresh
    (<["user:1" := {| value := JsString "guest"; keyRef := JsString "user:1";
                      isPermanent := false; maxAgeMs := 30;
                      expiresAt := 30000009 |}]> ∅) in
  MemoryStore_Set fresh [] 5 [JsString "user:1"; JsString "admin"]
  = (Normal (JsBoolean true), with_user1) ∧
  MemoryStore_Set with_user1 [] 9 [JsString "user:1"; JsString "guest"; ttl_options 30]
  = (Normal (JsBoolean true), this2) ∧
  MemoryStore_Set fresh [] 9 [JsString "user:1"; JsString "guest"; ttl_options 30]
  = (Normal (JsBoolean true), this2).
Proof.
  cbv zeta.
  assert (H1 : MemoryStore_Set fresh [] 5 [JsString "user:1"; JsString "admin"]
               = (Normal (JsBoolean true), with_user1)) by reflexivity.
  split; [exact H1|]. split; [reflexivity|].
  apply (set_overwrites_the_whole_entry fresh [] 5 9 (JsString "user:1")
           (JsString "admin") (JsString "guest") [] [ttl_options 30]
           (JsBoolean true) with_user1 _ _ H1).
  reflexivity.
Defined.

Lemma set_writes_one_slot_witness :
  MemoryStore_Set with_user1 [] 1000
    [JsString "session:1"; JsString "x"; ttl_options 30]
  = (Normal (JsBoolean true), with_two) ∧
  ∃ keyString,
    Get_keyString [] (JsString "session:1") None = (keyString, None) ∧
    (∀ other, other ≠ keyString →
       store with_two !! other = store with_user1 !! other) ∧
    size (store with_two)
    = match store with_user1 !! keyString with
      | Some _ => size (store with_user1)
      | None => S (size (store with_user1))
      end.
Proof.
  assert (Hset : MemoryStore_Set with_user1 [] 1000
                   [JsString "session:1"; JsString "x"; ttl_options 30]
                 = (Normal (JsBoolean true), with_two)) by reflexivity.
  split; [exact Hset|].
  destruct (set_writes_one_slot with_user1 [] 1000 _ _ _ Hset)
    as (ks & Hks & _ & Hframe & Hsize & _).
  exists ks. split; [exact Hks|]. split; [exact Hframe|exact Hsize].
Defined.

Lemma sweep_then_get_witness :
  1000 ≤ 99000000 ∧
  match MemoryStore_Get (MemoryStore_CleanupExpiredItems with_two 1000) []
          99000000 [JsString "session:1"],
        MemoryStore_Get with_two [] 99000000 [JsString "session:1"] with
  | (Normal v1, this1), (Normal v2, this2) =>
      v1 = v2 ∧ this1 = MemoryStore_CleanupExpiredItems this2 1000
  | (Thrown m1, this1), (Thrown m2, this2) =>
      m1 = m2 ∧ this1 = MemoryStore_CleanupExpiredItems this2 1000
  | _, _ => False
  end.
Proof.
  split; [lia|].
  apply (sweep_then_get_is_get_then_sweep with_two [] 1000 99000000
           [JsString "session:1"]).
  lia.
Defined.

Lemma ttl_without_isPermanent_false_witness :
  let info := [JsString "user:1"; JsString "admin"; ttl_only_options] in
  let this' := with_store fresh
    (<["user:1" := {| value := JsString "admin"; keyRef := JsString "user:1";
                      isPermanent := true; maxAgeMs := 30;
                      expiresAt := time_point_max |}]> ∅) in
  MemoryStore_Set fresh [] 5 info = (Normal (JsBoolean true), this') ∧
  Set_options [] info None = ((true, 30%N), None) ∧
  (true = true ∨ 30%N = 0%N) ∧
  MemoryStore_Get this' [] 99000000 [JsString "user:1"]
  = (Normal (JsString "admin"), this').
Proof.
  cbv zeta. split; [reflexivity|]. split; [reflexivity|]. split; [by left|].
  apply (entry_without_both_options_never_expires fresh [] 5 99000000
           [JsString "user:1"; JsString "admin"; ttl_only_options]
           (true, 30%N) (JsBoolean true)).
  - reflexivity.
  - reflexivity.
  - by left.
Defined.

Lemma forged_key_shares_the_slot_witness :
  Get_keyString [] forged_key None = ("user:1", None) ∧
  Get_keyString [] (JsString "user:1") None = ("user:1", None) ∧
  ∃ this',
    MemoryStore_Set fresh [] 5 [forged_key; JsString "admin"]
    = (Normal (JsBoolean true), this') ∧
    MemoryStore_Get this' [] 9 [JsString "user:1"]
    = (Normal (JsString "admin"), this') ∧
    MemoryStore_Has this' [] 9 [JsString "user:1"]
    = (Normal (JsBoolean true), this').
Proof.
  split; [reflexivity|]. split; [reflexivity|].
  eexists. split; [reflexivity|].
  destruct (keys_with_one_identity_share_a_slot fresh [] 5 9 forged_key
              (JsString "user:1") "user:1" (JsString "admin") (JsBoolean true) _
              eq_refl eq_refl eq_refl) as (Hget & Hhas & _).
  split; [exact Hget|exact Hhas].
Defined.

Lemma throwing_key_acts_on_the_placeholder_witness :
  Get_keyString [] throwing_key None = ("[object Object]", Some "boom") ∧
  MemoryStore_Delete (MemoryStore_Set fresh [] 0 [JsBigInt 7; JsString "v"]).2 []
    [throwing_key]
  = (Thrown "boom", fresh).
Proof.
  split; [reflexivity|].
  destruct (calls_that_throw_act_on_the_placeholder_slot
              (MemoryStore_Set fresh [] 0 [JsBigInt 7; JsString "v"]).2 [] 0
              throwing_key JsNull "[object Object]" "boom" eq_refl)
    as (_ & _ & Hdelete & _).
  exact Hdelete.
Defined.

Lemma bigint_key_throws_after_storing_witness :
  let bigint := "TypeError: Do not know how to serialize a BigInt" in
  IsObject (JsBigInt 7) = false ∧
  ∃ this',
    MemoryStore_Set fresh [] 5 [JsBigInt 7; JsString "admin"]
    = (Thrown bigint, this') ∧
    is_Some (store this' !! "[object Object]") ∧
    (MemoryStore_Get fresh [] 5 [JsBigInt 7; JsNull]).1 = Thrown bigint.
Proof.
  cbv zeta. split; [reflexivity|].
  destruct (keys_that_are_no_objects_throw_only_through_JSON fresh [] 5 (JsBigInt 7)
              (JsString "admin") [JsNull] eq_refl)
    as (_ & _ & _ & _ & _ & ks & p & this' & Hsafe & _ & _ & Hset & Hsome & Hget & _).
  injection Hsafe as <- <-.
  exists this'. split; [exact Hset|]. split; [exact Hsome|].
  apply Hget. reflexivity.
Defined.

Lemma one_entry_per_set_witness :
  MemoryStore_new [] [] = Normal fresh ∧
  (size (store (native (run {| js_heap := []; native := fresh |} throwing_trace)))
   ≤ count_set_calls throwing_trace)%nat.
Proof.
  split; [reflexivity|].
  apply (table_holds_at_most_one_entry_per_set [] [] fresh throwing_trace eq_refl).
Defined.

Lemma key_assignment_witness :
  js_heap one_key_world !! 0%nat
  = Some {| target_value := JsString "a"; target_keyId := "key_7" |} ∧
  "__keyId" ≠ "toString" ∧ "__keyId" ≠ "valueOf" ∧
  Object_Get (Proxy_set (js_heap one_key_world) 0 "name" (JsString "b"))
    (JsProxy 0) "__keyId" = Normal (JsString "b") ∧
  handle_id (Proxy_set (js_heap one_key_world) 0 "name" (JsString "b")) (JsProxy 0)
  = Some "key_7".
Proof.
  split; [reflexivity|]. split; [discriminate|]. split; [discriminate|].
  destruct (key_assignment_round_trip (js_heap one_key_world) 0
              {| target_value := JsString "a"; target_keyId := "key_7" |}
              "name" "__keyId" (JsString "b") eq_refl)
    as (Hread & _ & Hid & _); [discriminate|discriminate|].
  split; [exact Hread|exact Hid].
Defined.

Lemma valueOf_witness :
  js_heap one_key_world !! 0%nat
  = Some {| target_value := JsString "a"; target_keyId := "key_7" |} ∧
  Key_valueOf (js_heap one_key_world) (JsProxy 0) = Normal JsUndefined.
Proof.
  split; [reflexivity|].
  destruct (valueOf_reads_the_value_of_the_value (js_heap one_key_world) 0
              {| target_value := JsString "a"; target_keyId := "key_7" |} eq_refl)
    as (_ & Hprim & _).
  exact (Hprim eq_refl eq_refl eq_refl).
Defined.

Lemma wrapper_missing_arguments_witness :
  is_plain_key (arg [] 0) = true ∧ IsObject (arg [] 2) = false ∧
  is_Normal (Wrapper_set fresh [] 5 []).1 ∧
  is_Normal (Wrapper_get fresh [] 5 []).1.
Proof.
  split; [reflexivity|]. split; [reflexivity|].
  destruct (wrapper_never_rejects_missing_arguments fresh [] 5 [] eq_refl eq_refl)
    as (Hset & Hget & _).
  split; [exact Hset|exact Hget].
Defined.

Lemma wrapper_start_witness :
  let custom := {| store := ∅; keyWrappers := ∅; cleanupThread := true;
                   stopCleanup := false; cleanupIntervalMs := 5000 |} in
  IsUndefined (arg [] 0) = true ∧
  cleanupIntervalMs (Wrapper_startCleanupTask custom []).2 = 60000%N ∧
  (Wrapper_startCleanupTask custom []).1 = JsBoolean false.
Proof.
  cbv zeta. split; [reflexivity|].
  destruct (wrapper_start_without_interval_sets_60000
              {| store := ∅; keyWrappers := ∅; cleanupThread := true;
                 stopCleanup := false; cleanupIntervalMs := 5000 |} [] eq_refl)
    as (Hinterval & _ & Hret & _).
  split; [exact Hinterval|exact Hret].
Defined.

Lemma wrapper_constructor_witness :
  Wrapper_new [] [] = Normal running ∧
  store running = ∅ ∧ keyWrappers running = ∅ ∧
  ∃ autoStartCleanup,
    JS_member [] (JsObject []) "autoStartCleanup" = Normal autoStartCleanup ∧
    stopCleanup running = negb (is_not_false autoStartCleanup) ∧
    cleanupThread running = is_not_false autoStartCleanup.
Proof.
  split; [reflexivity|].
  destruct (wrapper_constructor_starts_the_sweeper [] [] running eq_refl)
    as (Hs & Hk & auto & Hauto & Hstop & Hthread & _).
  split; [exact Hs|]. split; [exact Hk|].
  exists auto. split; [exact Hauto|]. split; [exact Hstop|exact Hthread].
Defined.

End Examples.
